(** * The bubble-sort sample programs of the AvaloniaEdit demo

    [source.c] and [source.cpp] (under
    [src/AvaloniaEdit.Demo/Resources/SampleFiles]) are two command-line
    integer sorters: one argument holding a comma-separated list is parsed,
    bubble-sorted and printed.  Both are embedded here function by function:
    arrays and vectors are lists of integers read with [!!] and written with
    [<[i:=x]>], C strings are [string]s (the terminating NUL is implicit), the
    two output streams are strings, and an out-of-bounds access is an
    explicit [Undefined] outcome. *)

From Stdlib Require Import ZArith Lia List String Ascii Bool Sorted Permutation
  DecimalString.
From Stdlib Require DecimalPos.
From stdpp Require Import base list.

Local Open Scope string_scope.
Local Open Scope Z_scope.

(** ** Outcomes and process results *)

(** What running a piece of code can give: a value, undefined behaviour (a
    read or write outside an array), or no answer within the allotted number
    of loop rounds. *)
Inductive outcome (A : Type) : Type :=
| Done (a : A)
| Undefined
| OutOfFuel.
Arguments Done {A} a.
Arguments Undefined {A}.
Arguments OutOfFuel {A}.

(** What a process leaves behind: its exit status and the text written to the
    two standard streams. *)
Record run : Type := Run {
  exit_code : Z;
  stdout : string;
  stderr : string
}.

Definition newline : string := String "010" EmptyString.
Definition dquote : string := String "034" EmptyString.

(** The usage line both programs print (without the line terminator). *)
Definition usage_text : string :=
  "Usage: please provide a list of at least two integers to sort in the format "
  ++ dquote ++ "1, 2, 3, 4, 5" ++ dquote.

(** The printer's contract of the specification: the elements joined by
    [", "], then a newline. *)
Definition string_of_Z (z : Z) : string := NilZero.string_of_int (Z.to_int z).

Definition render (l : list Z) : string :=
  String.concat ", " (map string_of_Z l) ++ newline.

(** ** The C library functions the programs call *)

Module Libc.

(** [strtol] must report a range error; whether it also reports a token
    with no digits at all is left to the implementation: ISO C (and glibc)
    leave [errno] alone, POSIX allows [EINVAL] (musl and the BSDs set it). *)
Variant libc : Type := ISO_C | POSIX_EINVAL.

Definition ERANGE : Z := 34.
Definition EINVAL : Z := 22.
Definition LONG_MAX : Z := 2 ^ 63 - 1.
Definition LONG_MIN : Z := - 2 ^ 63.
Definition INT_MODULUS : Z := 2 ^ 32.

Definition isspace (c : ascii) : bool :=
  let n := nat_of_ascii c in
  ((n =? 32) || ((9 <=? n) && (n <=? 13)))%nat.

Definition isdigit (c : ascii) : bool :=
  let n := nat_of_ascii c in
  ((48 <=? n) && (n <=? 57))%nat.

Definition digit_value (c : ascii) : Z := Z.of_nat (nat_of_ascii c) - 48.

Fixpoint skip_space (s : string) : string :=
  match s with
  | String c s' => if isspace c then skip_space s' else s
  | EmptyString => s
  end.

(** The optional sign: [(negative, rest)]. *)
Definition read_sign (s : string) : bool * string :=
  match s with
  | String c s' =>
      if Ascii.eqb c "-" then (true, s')
      else if Ascii.eqb c "+" then (false, s')
      else (false, s)
  | EmptyString => (false, s)
  end.

(** The value of the longest run of decimal digits at the head of [s],
    accumulated onto [acc]. *)
Fixpoint read_digits (acc : Z) (s : string) : Z :=
  match s with
  | String c s' =>
      if isdigit c then read_digits (acc * 10 + digit_value c) s' else acc
  | EmptyString => acc
  end.

Definition starts_with_digit (s : string) : bool :=
  match s with
  | String c _ => isdigit c
  | EmptyString => false
  end.

(** The integer a text denotes to [strtol]: white space, an optional sign,
    digits; [None] when there is no digit to convert. *)
Definition numeric_value (nptr : string) : option Z :=
  let '(negative, s) := read_sign (skip_space nptr) in
  if starts_with_digit s then
    let v := read_digits 0 s in
    Some (if negative then - v else v)
  else None.

(** [strtol(nptr, NULL, 10)] called with [errno == 0]: the value returned
    and the value of [errno] afterwards. *)
Definition strtol (lc : libc) (nptr : string) : Z * Z :=
  match numeric_value nptr with
  | Some v =>
      if v >? LONG_MAX then (LONG_MAX, ERANGE)
      else if v <? LONG_MIN then (LONG_MIN, ERANGE)
      else (v, 0)
  | None =>
      (0, match lc with ISO_C => 0 | POSIX_EINVAL => EINVAL end)
  end.

(** [atoi(nptr)] is [(int)strtol(nptr, NULL, 10)]; a value outside [int] is
    undefined in ISO C and truncated here, as glibc does. *)
Definition atoi (nptr : string) : Z :=
  let v := fst (strtol ISO_C nptr) in
  ((v + INT_MODULUS / 2) mod INT_MODULUS - INT_MODULUS / 2)%Z.

(** The tokens successive [strtok(_, delim)] calls return for [s]: the
    maximal runs of characters other than [delim], empty runs skipped.
    [token] is the run being read. *)
Fixpoint strtok_from (delim : ascii) (s : string) (token : string)
  : list string :=
  match s with
  | EmptyString =>
      match token with
      | EmptyString => []
      | _ => [token]
      end
  | String c s' =>
      if Ascii.eqb c delim then
        match token with
        | EmptyString => strtok_from delim s' EmptyString
        | _ => token :: strtok_from delim s' EmptyString
        end
      else strtok_from delim s' (token ++ String c EmptyString)
  end.

Definition strtok_all (delim : ascii) (s : string) : list string :=
  strtok_from delim s EmptyString.

(** [s[i]] for [i <= strlen(s)]: the character, or the terminating NUL. *)
Definition char_at (s : string) (i : nat) : ascii :=
  match String.get i s with
  | Some c => c
  | None => "000"%char
  end.

End Libc.

(** ** [source.c] *)

Module C.
Import Libc.

(** "figure out the length of the list first": one per comma. *)
Fixpoint count_commas (orig_list : string) : nat :=
  match orig_list with
  | EmptyString => 0%nat
  | String c rest =>
      if Ascii.eqb c "," then S (count_commas rest) else count_commas rest
  end.

(** [malloc(num_elements * sizeof(long))]: the fresh cells hold whatever
    [junk] was in memory. *)
Definition malloc (junk : nat -> Z) (num_elements : nat) : list Z :=
  map junk (seq 0 num_elements).

(** "find the numbers": the [while (token != NULL)] loop.  [None] is the
    early [return 0] taken when [errno] is set. *)
Fixpoint find_numbers (lc : libc) (tokens : list string) (arr : list Z)
  (curr_index : nat) : option (list Z) :=
  match tokens with
  | [] => Some arr
  | token :: rest =>
      let '(temp_num, errno) := strtol lc token in
      if negb (errno =? 0) then None
      else find_numbers lc rest (<[curr_index := temp_num]> arr) (S curr_index)
  end.

(** [parse_list]: the [size_t] returned and the array left in [*arr]
    ([None] for [NULL]). *)
Definition parse_list (lc : libc) (junk : nat -> Z) (orig_list : string)
  : nat * option (list Z) :=
  let num_elements := count_commas orig_list in
  if (num_elements =? 0)%nat then (0%nat, None)
  else
    let num_elements := S num_elements in
    let arr := malloc junk num_elements in
    match find_numbers lc (strtok_all "," orig_list) arr 0 with
    | None => (0%nat, None)
    | Some arr => (num_elements, Some arr)
    end.

Definition SIZE_MAX : Z := 2 ^ 64 - 1.

(** [num_elems - 1] computed in [size_t]: it wraps to [SIZE_MAX] at 0. *)
Definition size_t_pred (num_elems : nat) : Z :=
  match num_elems with
  | O => SIZE_MAX
  | S n => Z.of_nat n
  end.

Definition swap_elements (arr : list Z) (i j : nat) : option (list Z) :=
  match arr !! i, arr !! j with
  | Some temp, Some arr_j => Some (<[j := temp]> (<[i := arr_j]> arr))
  | _, _ => None
  end.

(** The [for (...; i < bound; i++)] loop of one pass, at index [i].  [cells]
    is the number of cells the array has from index [i] on: with none left,
    [arr[i]] lies outside the array. *)
Fixpoint bubble_pass (cells : nat) (i : nat) (bound : Z) (arr : list Z)
  (had_to_swap : bool) : option (list Z * bool) :=
  if Z.of_nat i <? bound then
    match cells with
    | O => None
    | S cells' =>
        match arr !! i, arr !! S i with
        | Some a, Some b =>
            if a >? b then
              match swap_elements arr i (S i) with
              | Some arr' => bubble_pass cells' (S i) bound arr' true
              | None => None
              end
            else bubble_pass cells' (S i) bound arr had_to_swap
        | _, _ => None
        end
    end
  else Some (arr, had_to_swap).

(** [bubble_sort]: the [while (true)] loop, at most [fuel] passes.  The
    function always returns 0, which [main] ignores: the result here is the
    array it leaves. *)
Fixpoint bubble_sort (fuel : nat) (arr : list Z) (num_elems : nat)
  : outcome (list Z) :=
  match fuel with
  | O => OutOfFuel
  | S fuel' =>
      match bubble_pass (length arr) 0 (size_t_pred num_elems) arr false with
      | None => Undefined
      | Some (arr', true) => bubble_sort fuel' arr' num_elems
      | Some (arr', false) => Done arr'
      end
  end.

(** The [for] loop of [print_array], at index [i]; [cells] as above. *)
Fixpoint print_loop (cells : nat) (i : nat) (bound : Z) (arr : list Z)
  (out : string) : option string :=
  if Z.of_nat i <? bound then
    match cells with
    | O => None
    | S cells' =>
        match arr !! i with
        | Some a =>
            print_loop cells' (S i) bound arr (out ++ string_of_Z a ++ ", ")
        | None => None
        end
    end
  else Some out.

(** [print_array]: the text written to standard output. *)
Definition print_array (arr : list Z) (num_elems : nat) : option string :=
  match print_loop (length arr) 0 (size_t_pred num_elems) arr "" with
  | Some out =>
      match arr !! Z.to_nat (size_t_pred num_elems) with
      | Some a => Some (out ++ string_of_Z a ++ newline)
      | None => None
      end
  | None => None
  end.

(** [usage]: the line written to standard error. *)
Definition usage : string := usage_text ++ newline.

(** [usage(); return 1;] *)
Definition usage_run : run :=
  Run 1 "" usage.

(** [main]; [argv] holds the program name and the arguments, so
    [argc = length argv].  Control reaching the end of [main] returns 0. *)
Definition main (fuel : nat) (lc : libc) (junk : nat -> Z)
  (argv : list string) : outcome run :=
  let argc := Z.of_nat (length argv) in
  if argc <? 2 then Done usage_run
  else
    let '(num_elements, arr) := parse_list lc junk (nth 1 argv "") in
    if (num_elements =? 0)%nat then Done usage_run
    else
      match arr with
      | None => Undefined
      | Some arr =>
          match bubble_sort fuel arr num_elements with
          | Done arr =>
              match print_array arr num_elements with
              | Some out => Done (Run 0 out "")
              | None => Undefined
              end
          | Undefined => Undefined
          | OutOfFuel => OutOfFuel
          end
      end.

End C.

(** ** [source.cpp] *)

Module Cpp.
Import Libc.

(** [swap(&v[x], &v[y])]. *)
Definition swap (v : list Z) (x y : nat) : option (list Z) :=
  match v !! x, v !! y with
  | Some temp, Some v_y => Some (<[y := temp]> (<[x := v_y]> v))
  | _, _ => None
  end.

(** The inner [for (j = 0; j < n - i - 1; j++)] loop, [iters] rounds left. *)
Fixpoint inner_loop (iters : nat) (j : nat) (v : list Z) (swapped : bool)
  : option (list Z * bool) :=
  match iters with
  | O => Some (v, swapped)
  | S iters' =>
      match v !! j, v !! S j with
      | Some a, Some b =>
          if a >? b then
            match swap v j (S j) with
            | Some v' => inner_loop iters' (S j) v' true
            | None => None
            end
          else inner_loop iters' (S j) v swapped
      | _, _ => None
      end
  end.

(** The outer [for (i = 0; i < n - 1; i++)] loop with its [break]. *)
Fixpoint outer_loop (iters : nat) (i : Z) (v : list Z) (n : Z)
  : option (list Z) :=
  match iters with
  | O => Some v
  | S iters' =>
      match inner_loop (Z.to_nat (n - i - 1)) 0 v false with
      | None => None
      | Some (v', swapped) =>
          if negb swapped then Some v'
          else outer_loop iters' (i + 1) v' n
      end
  end.

Definition bubbleSort (v : list Z) (n : Z) : option (list Z) :=
  outer_loop (Z.to_nat (n - 1)) 0 v n.

(** How the outer loop is left: by its [break], after a pass that made no
    swap, or because its condition [i < n - 1] no longer holds. *)
Variant loop_exit : Type := Break | ConditionFailed.

(** The outer loop once more, with two ghost values beside the vector: the
    number of passes made and the way the loop was left. *)
Fixpoint outer_loop_passes (iters : nat) (i : Z) (v : list Z) (n : Z)
  : option (list Z * nat * loop_exit) :=
  match iters with
  | O => Some (v, 0%nat, ConditionFailed)
  | S iters' =>
      match inner_loop (Z.to_nat (n - i - 1)) 0 v false with
      | None => None
      | Some (v', swapped) =>
          if negb swapped then Some (v', 1%nat, Break)
          else
            match outer_loop_passes iters' (i + 1) v' n with
            | Some (v'', passes, how) => Some (v'', S passes, how)
            | None => None
            end
      end
  end.

Definition bubbleSort_passes (v : list Z) (n : Z)
  : option (list Z * nat * loop_exit) :=
  outer_loop_passes (Z.to_nat (n - 1)) 0 v n.

Fixpoint print_loop (iters : nat) (i : Z) (v : list Z) (size : Z)
  (out : string) : option string :=
  match iters with
  | O => Some out
  | S iters' =>
      match v !! Z.to_nat i with
      | Some a =>
          let sep := if i =? size - 1 then newline else ", " in
          print_loop iters' (i + 1) v size (out ++ string_of_Z a ++ sep)
      | None => None
      end
  end.

(** [print]: the text written to [std::cout]. *)
Definition print (v : list Z) (size : Z) : option string :=
  print_loop (Z.to_nat size) 0 v size "".

(** "Ensure input is comma separated in correct format": the [while] loop,
    entered with [index = 1] and [commaSeparated = false].  [index] grows by
    3 each round, so [strlen(characters)] rounds always reach the exit. *)
Fixpoint check_format (rounds : nat) (characters : string) (index : nat)
  (commaSeparated : bool) : bool :=
  match rounds with
  | O => commaSeparated
  | S rounds' =>
      if (index <? String.length characters)%nat then
        if Ascii.eqb (char_at characters index) ","
           && Ascii.eqb (char_at characters (index + 1)) " "
        then check_format rounds' characters (index + 3) true
        else false
      else commaSeparated
  end.

(** The [for] loop filling [numbers]; [characters] is [&characters[i]]. *)
Fixpoint collect_numbers (characters : string) : list Z :=
  match characters with
  | EmptyString => []
  | String c rest =>
      if negb (Ascii.eqb c ",") && negb (Ascii.eqb c " ")
      then atoi characters :: collect_numbers rest
      else collect_numbers rest
  end.

(** The part of [main] that fills [numbers].  [characters = argv[1]] is only
    read from when [argc == 2]. *)
Definition read_numbers (argv : list string) : list Z :=
  let argc := Z.of_nat (length argv) in
  let characters := nth 1 argv "" in
  if argc =? 2 then
    if check_format (String.length characters) characters 1 false
    then collect_numbers characters
    else []
  else [].

(** The usage branch: the message goes to [std::cout]; [main] has the one
    [return 0]. *)
Definition usage_run : run :=
  Run 0 (usage_text ++ newline) "".

Definition main (argv : list string) : outcome run :=
  let numbers := read_numbers argv in
  let size := Z.of_nat (length numbers) in
  if size <? 2 then Done usage_run
  else
    match bubbleSort numbers size with
    | Some numbers =>
        match print numbers size with
        | Some out => Done (Run 0 out "")
        | None => Undefined
        end
    | None => Undefined
    end.

End Cpp.

(** ** One pass as a function on lists

    A pass carries one element [x] rightwards through the cells [l] after it:
    [bubble x l] is what the cells hold afterwards and [swaps x l] tells
    whether any pair was exchanged. *)

Fixpoint bubble (x : Z) (l : list Z) : list Z :=
  match l with
  | [] => [x]
  | y :: l' => if x >? y then y :: bubble x l' else x :: bubble y l'
  end.

Fixpoint swaps (x : Z) (l : list Z) : bool :=
  match l with
  | [] => false
  | y :: l' => if x >? y then true else swaps y l'
  end.

(** The loop invariant of the outer loops: the last cells [suf] are in their
    final place. *)
Definition settled (pre suf : list Z) : Prop :=
  Sorted Z.le suf /\ Forall (fun a => Forall (fun b => a <= b) suf) pre.

(** Closes [Forall] and [Sorted] goals about explicit lists of integers. *)
Ltac explicit_list :=
  repeat constructor; try (unfold Libc.LONG_MIN, Libc.LONG_MAX; lia).

(** ** Facts about one pass *)

Section PassFacts.

Lemma bubble_length x l : length (bubble x l) = S (length l).
Proof.
  revert x; induction l as [|y l IH]; intros x; simpl; [reflexivity|].
  destruct (x >? y); simpl; now rewrite IH.
Qed.

Lemma bubble_perm x l : Permutation (x :: l) (bubble x l).
Proof.
  revert x; induction l as [|y l IH]; intros x; simpl; [reflexivity|].
  destruct (x >? y).
  - rewrite perm_swap. constructor. apply IH.
  - constructor. apply IH.
Qed.

(** The carried element only grows, and ends up last. *)
Lemma bubble_max x l :
  exists q m, bubble x l = (q ++ [m])%list /\ x <= m /\ Forall (fun a => a <= m) q.
Proof.
  revert x; induction l as [|y l IH]; intros x; simpl.
  - exists [], x. repeat split; [lia | constructor].
  - destruct (Z.gtb_spec x y) as [Hgt|Hle].
    + destruct (IH x) as (q & m & -> & Hxm & Hq).
      exists (y :: q), m. repeat split; [assumption|].
      constructor; [lia | assumption].
    + destruct (IH y) as (q & m & -> & Hym & Hq).
      exists (x :: q), m. repeat split; [lia|].
      constructor; [lia | assumption].
Qed.

Lemma swaps_false_sorted x l : swaps x l = false -> Sorted Z.le (x :: l).
Proof.
  revert x; induction l as [|y l IH]; intros x; simpl.
  - intros _. repeat constructor.
  - destruct (Z.gtb_spec x y) as [Hgt|Hle]; [discriminate|].
    intros H. constructor; [now apply IH | constructor; assumption].
Qed.

Lemma sorted_swaps_false x l : Sorted Z.le (x :: l) -> swaps x l = false.
Proof.
  revert x; induction l as [|y l IH]; intros x; simpl; [reflexivity|].
  intros H. inversion H as [|? ? Hs Hhd]; subst.
  inversion Hhd; subst.
  destruct (Z.gtb_spec x y) as [Hgt|Hle]; [lia|]. now apply IH.
Qed.

Lemma swaps_false_bubble x l : swaps x l = false -> bubble x l = x :: l.
Proof.
  revert x; induction l as [|y l IH]; intros x; simpl; [reflexivity|].
  destruct (x >? y); [discriminate|]. intros H. now rewrite IH.
Qed.

(** A pass over [l ++ r] is a pass over [l] continued through [r]. *)
Lemma bubble_app x l r q m :
  bubble x l = (q ++ [m])%list ->
  bubble x (l ++ r) = (q ++ bubble m r)%list
  /\ swaps x (l ++ r) = swaps x l || swaps m r.
Proof.
  revert x q; induction l as [|y l IH]; intros x q; simpl.
  - destruct q as [|a [|b q]]; simpl; intros [=]; subst. now split.
  - destruct (x >? y).
    + destruct q as [|a q]; simpl.
      * intros [= -> E]. pose proof (bubble_length x l) as Hl.
        rewrite E in Hl. discriminate.
      * intros [= -> E]. destruct (IH _ _ E) as [-> _]. now split.
    + destruct q as [|a q]; simpl.
      * intros [= -> E]. pose proof (bubble_length y l) as Hl.
        rewrite E in Hl. discriminate.
      * intros [= -> E]. destruct (IH _ _ E) as [-> ->]. now split.
Qed.

Lemma swap_adjacent (pre : list Z) x y r :
  C.swap_elements (pre ++ x :: y :: r) (length pre) (S (length pre))
  = Some (pre ++ y :: x :: r)%list.
Proof.
  unfold C.swap_elements.
  rewrite list_lookup_middle by reflexivity.
  replace (pre ++ x :: y :: r)%list with ((pre ++ [x]) ++ y :: r)%list
    by now rewrite <- app_assoc.
  rewrite (list_lookup_middle (pre ++ [x]) r y)
    by (rewrite length_app; simpl; lia).
  rewrite <- app_assoc. simpl.
  rewrite (insert_app_r_alt pre _ (length pre)) by lia.
  rewrite Nat.sub_diag. simpl.
  rewrite (insert_app_r_alt pre _ (S (length pre))) by lia.
  replace (S (length pre) - length pre)%nat with 1%nat by lia.
  reflexivity.
Qed.

Lemma swap_elements_length arr i j arr' :
  C.swap_elements arr i j = Some arr' -> length arr' = length arr.
Proof.
  unfold C.swap_elements.
  destruct (arr !! i); [|discriminate]. destruct (arr !! j); [|discriminate].
  intros [= <-]. now rewrite !length_insert.
Qed.

(** What a counted pass computes when it sweeps the cells of [x :: l] that
    sit between [pre] and [suf]. *)
Lemma inner_loop_spec l : forall pre x suf b,
  Cpp.inner_loop (length l) (length pre) (pre ++ x :: l ++ suf) b
  = Some ((pre ++ bubble x l ++ suf)%list, b || swaps x l).
Proof.
  induction l as [|y l IH]; intros pre x suf b; simpl.
  - now rewrite orb_false_r.
  - rewrite list_lookup_middle by reflexivity.
    replace (pre ++ x :: y :: l ++ suf)%list
      with ((pre ++ [x]) ++ y :: l ++ suf)%list at 1
      by now rewrite <- app_assoc.
    rewrite (list_lookup_middle (pre ++ [x]) _ y)
      by (rewrite length_app; simpl; lia).
    destruct (x >? y).
    + change (Cpp.swap (pre ++ x :: y :: l ++ suf) (length pre) (S (length pre)))
        with (C.swap_elements (pre ++ x :: y :: l ++ suf) (length pre)
                (S (length pre))).
      rewrite swap_adjacent.
      replace (pre ++ y :: x :: l ++ suf)%list
        with ((pre ++ [y]) ++ x :: l ++ suf)%list
        by now rewrite <- app_assoc.
      replace (S (length pre)) with (length (pre ++ [y]))
        by (rewrite length_app; simpl; lia).
      rewrite IH, <- app_assoc, orb_true_r. reflexivity.
    + replace (pre ++ x :: y :: l ++ suf)%list
        with ((pre ++ [x]) ++ y :: l ++ suf)%list
        by now rewrite <- app_assoc.
      replace (S (length pre)) with (length (pre ++ [x]))
        by (rewrite length_app; simpl; lia).
      rewrite IH, <- app_assoc. reflexivity.
Qed.

(** The C loop with bound [i + k] is the loop counted to [k], provided
    [cells] covers what is left of the array. *)
Lemma bubble_pass_counted k : forall i arr b cells,
  (length arr - i <= cells)%nat ->
  C.bubble_pass cells i (Z.of_nat (i + k)) arr b = Cpp.inner_loop k i arr b.
Proof.
  induction k as [|k IH]; intros i arr b cells Hcells.
  - rewrite Nat.add_0_r. destruct cells; simpl; now rewrite Z.ltb_irrefl.
  - assert (Hlt : (Z.of_nat i <? Z.of_nat (i + S k)) = true)
      by (apply Z.ltb_lt; lia).
    destruct cells as [|cells]; cbn [C.bubble_pass Cpp.inner_loop];
      rewrite Hlt.
    + rewrite (lookup_ge_None_2 arr i) by lia. reflexivity.
    + destruct (arr !! i) as [a|]; [|reflexivity].
      destruct (arr !! S i) as [c|]; [|reflexivity].
      replace (Z.of_nat (i + S k)) with (Z.of_nat (S i + k)) by lia.
      destruct (a >? c); [|apply IH; lia].
      change (Cpp.swap arr i (S i)) with (C.swap_elements arr i (S i)).
      destruct (C.swap_elements arr i (S i)) as [arr'|] eqn:Hswap;
        [|reflexivity].
      apply IH. rewrite (swap_elements_length _ _ _ _ Hswap). lia.
Qed.

(** With no cell left the read of [arr[i]] fails, as the loop says. *)
Lemma bubble_pass_outside cells i bound arr b :
  (length arr <= i)%nat -> Z.of_nat i < bound ->
  C.bubble_pass cells i bound arr b = None.
Proof.
  intros Hlen Hlt. apply Z.ltb_lt in Hlt.
  destruct cells; cbn [C.bubble_pass]; rewrite Hlt; [reflexivity|].
  now rewrite (lookup_ge_None_2 arr i) by lia.
Qed.

End PassFacts.

(** ** The outer loops *)

Section SortFacts.

Lemma settled_nil pre : settled pre [].
Proof.
  split; [constructor|]. induction pre; constructor; auto.
Qed.

Lemma settled_step x l suf q m :
  settled (x :: l) suf ->
  bubble x l = (q ++ [m])%list ->
  Forall (fun a => a <= m) q ->
  settled q (m :: suf).
Proof.
  intros [Hs Hf] Hb Hq.
  pose proof (bubble_perm x l) as Hp. rewrite Hb in Hp.
  apply (Permutation_Forall Hp) in Hf.
  apply Forall_app in Hf as [Hfq Hfm].
  inversion Hfm as [|? ? Hm _]; subst.
  split.
  - constructor; [assumption|].
    destruct suf; constructor. now inversion Hm.
  - clear Hb Hp Hfm. induction q as [|a q IH]; constructor.
    + inversion Hq; inversion Hfq; subst. constructor; assumption.
    + inversion Hq; inversion Hfq; subst. apply IH; assumption.
Qed.

Lemma settled_sorted_app pre suf :
  Sorted Z.le pre -> settled pre suf -> Sorted Z.le (pre ++ suf).
Proof.
  intros Hpre [Hs Hf]. induction pre as [|a pre IH]; simpl; [assumption|].
  inversion Hpre as [|? ? Hpre' Hhd]; subst.
  inversion Hf as [|? ? Ha Hf']; subst.
  constructor; [now apply IH|].
  destruct pre as [|b pre]; simpl.
  - destruct suf; constructor. now inversion Ha.
  - constructor. now inversion Hhd.
Qed.

Lemma short_sorted (l : list Z) : (length l <= 1)%nat -> Sorted Z.le l.
Proof.
  destruct l as [|a [|b l]]; simpl; intros H;
    [constructor | repeat constructor | lia].
Qed.

(** The C++ outer loop, entered with [length suf] cells settled. *)
Lemma outer_loop_sorts iters : forall pre suf,
  settled pre suf ->
  (length pre - 1 = iters)%nat ->
  exists v',
    Cpp.outer_loop iters (Z.of_nat (length suf)) (pre ++ suf)
      (Z.of_nat (length (pre ++ suf))) = Some v'
    /\ Permutation (pre ++ suf) v' /\ Sorted Z.le v'.
Proof.
  induction iters as [|iters IH]; intros pre suf Hset Hlen.
  - exists (pre ++ suf)%list. repeat split; [reflexivity|].
    apply settled_sorted_app; [apply short_sorted; lia | assumption].
  - destruct pre as [|x l]; [simpl in Hlen; lia|].
    cbn [Cpp.outer_loop].
    replace (Z.to_nat (Z.of_nat (length ((x :: l) ++ suf))
                       - Z.of_nat (length suf) - 1)) with (length l)
      by (rewrite length_app; simpl; lia).
    pose proof (inner_loop_spec l [] x suf false) as Hpass. simpl in Hpass.
    change ((x :: l) ++ suf)%list with (x :: l ++ suf)%list.
    rewrite Hpass. clear Hpass.
    destruct (swaps x l) eqn:Hsw; simpl negb; cbv iota.
    + destruct (bubble_max x l) as (q & m & Hb & _ & Hq).
      pose proof (settled_step _ _ _ _ _ Hset Hb Hq) as Hset'.
      pose proof (bubble_length x l) as Hbl.
      rewrite Hb, length_app in Hbl. simpl in Hbl, Hlen.
      destruct (IH q (m :: suf) Hset' ltac:(lia)) as (v' & Hrun & Hperm & Hsort).
      exists v'. rewrite Hb, <- app_assoc. simpl app.
      replace (Z.of_nat (length suf) + 1) with (Z.of_nat (length (m :: suf)))
        by (simpl; lia).
      replace (Z.of_nat (length (x :: l ++ suf)))
        with (Z.of_nat (length (q ++ m :: suf)))
        by (simpl; rewrite !length_app; simpl; lia).
      repeat split; [assumption | | assumption].
      etransitivity; [|exact Hperm].
      change (q ++ m :: suf)%list with (q ++ [m] ++ suf)%list.
      rewrite app_assoc, <- Hb.
      change (x :: l ++ suf)%list with ((x :: l) ++ suf)%list.
      apply Permutation_app_tail, bubble_perm.
    + exists (x :: l ++ suf)%list.
      rewrite (swaps_false_bubble _ _ Hsw).
      repeat split; [reflexivity|].
      change (x :: l ++ suf)%list with ((x :: l) ++ suf)%list.
      apply settled_sorted_app; [now apply swaps_false_sorted | assumption].
Qed.

Lemma bubbleSort_sorts (v : list Z) :
  exists v',
    Cpp.bubbleSort v (Z.of_nat (length v)) = Some v'
    /\ Permutation v v' /\ Sorted Z.le v'.
Proof.
  destruct (outer_loop_sorts (length v - 1) v [] (settled_nil v) eq_refl)
    as (v' & Hrun & Hperm & Hsort).
  rewrite app_nil_r in Hrun, Hperm. simpl in Hrun.
  exists v'. repeat split; try assumption.
  unfold Cpp.bubbleSort.
  replace (Z.to_nat (Z.of_nat (length v) - 1)) with (length v - 1)%nat by lia.
  assumption.
Qed.

(** A full pass of the C loop over a non-empty array. *)
Lemma full_pass x l :
  C.bubble_pass (length (x :: l)) 0 (C.size_t_pred (length (x :: l)))
    (x :: l) false
  = Some (bubble x l, swaps x l).
Proof.
  cbn [length C.size_t_pred].
  rewrite (bubble_pass_counted (length l) 0 (x :: l) false) by (simpl; lia).
  pose proof (inner_loop_spec l [] x [] false) as Hpass.
  simpl in Hpass. rewrite !app_nil_r in Hpass. exact Hpass.
Qed.

Lemma sorted_pass_no_swap (v : list Z) :
  v <> [] -> Sorted Z.le v ->
  C.bubble_pass (length v) 0 (C.size_t_pred (length v)) v false
  = Some (v, false).
Proof.
  destruct v as [|x l]; [congruence|]. intros _ Hs.
  rewrite full_pass, (sorted_swaps_false _ _ Hs).
  now rewrite (swaps_false_bubble _ _ (sorted_swaps_false _ _ Hs)).
Qed.

(** The C [while] loop, entered with [suf] settled: [length pre] passes (and
    at least one) are enough. *)
Lemma bubble_sort_settled fuel : forall pre suf,
  settled pre suf ->
  (pre ++ suf)%list <> [] ->
  (1 <= fuel)%nat -> (length pre <= fuel)%nat ->
  exists v',
    C.bubble_sort fuel (pre ++ suf) (length (pre ++ suf)) = Done v'
    /\ Permutation (pre ++ suf) v' /\ Sorted Z.le v'.
Proof.
  induction fuel as [|fuel IH]; intros pre suf Hset Hne H1 Hlen; [lia|].
  destruct pre as [|x l].
  - simpl app in *. destruct Hset as [Hs _].
    cbn [C.bubble_sort]. rewrite (sorted_pass_no_swap _ Hne Hs).
    exists suf. repeat split; [reflexivity | assumption].
  - change ((x :: l) ++ suf)%list with (x :: l ++ suf)%list.
    cbn [C.bubble_sort]. rewrite full_pass.
    destruct (bubble_max x l) as (q & m & Hb & _ & Hq).
    destruct (bubble_app x l suf q m Hb) as [Hbub Hsw].
    pose proof (settled_step _ _ _ _ _ Hset Hb Hq) as Hset'.
    pose proof (sorted_swaps_false _ _ (proj1 Hset')) as Hms.
    rewrite Hms, orb_false_r in Hsw.
    rewrite (swaps_false_bubble _ _ Hms) in Hbub.
    rewrite Hsw. destruct (swaps x l) eqn:Hxl.
    + assert (Hl : (1 <= length l)%nat)
        by (destruct l; [discriminate | simpl; lia]).
      pose proof (bubble_length x l) as Hbl.
      rewrite Hb, length_app in Hbl. simpl in Hbl, Hlen.
      assert (Hne' : (q ++ m :: suf)%list <> [])
        by (destruct q; discriminate).
      destruct (IH q (m :: suf) Hset' Hne' ltac:(lia) ltac:(lia))
        as (v' & Hrun & Hperm & Hsort).
      exists v'. rewrite Hbub.
      replace (length (x :: l ++ suf)) with (length (q ++ m :: suf))
        by (simpl; rewrite !length_app; simpl; lia).
      repeat split; [assumption | | assumption].
      etransitivity; [|exact Hperm].
      rewrite <- Hbub. apply bubble_perm.
    + rewrite (swaps_false_bubble _ _ Hsw).
      exists (x :: l ++ suf)%list.
      repeat split; [reflexivity|]. now apply swaps_false_sorted.
Qed.

Lemma bubble_sort_sorts (arr : list Z) (fuel : nat) :
  arr <> [] -> (length arr <= fuel)%nat ->
  exists arr',
    C.bubble_sort fuel arr (length arr) = Done arr'
    /\ Permutation arr arr' /\ Sorted Z.le arr'.
Proof.
  intros Hne Hfuel.
  assert (H1 : (1 <= fuel)%nat)
    by (destruct arr; [congruence | simpl in Hfuel; lia]).
  destruct (bubble_sort_settled fuel arr [] (settled_nil arr)) as (v & H);
    rewrite ?app_nil_r; try assumption.
  rewrite !app_nil_r in H. now exists v.
Qed.

End SortFacts.

(** ** The printers *)

Section PrintFacts.

Lemma append_assoc (a b c : string) : ((a ++ b) ++ c = a ++ (b ++ c))%string.
Proof. induction a as [|ch a IH]; simpl; [reflexivity | now rewrite IH]. Qed.

Lemma render_cons a (l : list Z) :
  l <> [] -> render (a :: l) = (string_of_Z a ++ ", " ++ render l)%string.
Proof.
  destruct l as [|b l]; [congruence|]. intros _.
  unfold render. cbn [map String.concat]. now rewrite !append_assoc.
Qed.

Lemma print_loop_render l : forall pre x out cells,
  (length l <= cells)%nat ->
  exists out',
    C.print_loop cells (length pre) (Z.of_nat (length pre + length l))
      (pre ++ l ++ [x]) out = Some out'
    /\ (out' ++ string_of_Z x ++ newline = out ++ render (l ++ [x]))%string.
Proof.
  induction l as [|a l IH]; intros pre x out cells Hcells.
  - exists out. split; [|reflexivity].
    rewrite Nat.add_0_r. destruct cells; simpl; now rewrite Z.ltb_irrefl.
  - destruct cells as [|cells]; [simpl in Hcells; lia|].
    destruct (IH (pre ++ [a])%list x (out ++ string_of_Z a ++ ", ")%string
                cells ltac:(simpl in Hcells; lia))
      as (out' & Hrun & Hout).
    exists out'. split.
    + cbn [C.print_loop]. simpl app.
      replace (Z.of_nat (length pre) <? Z.of_nat (length pre + length (a :: l)))
        with true by (symmetry; apply Z.ltb_lt; simpl; lia).
      rewrite list_lookup_middle by reflexivity.
      rewrite <- Hrun, <- app_assoc, length_app. simpl.
      replace (length pre + 1 + length l)%nat
        with (length pre + S (length l))%nat by lia.
      rewrite Nat.add_1_r. reflexivity.
    + rewrite Hout. simpl app.
      rewrite (render_cons a (l ++ [x])) by (destruct l; discriminate).
      now rewrite !append_assoc.
Qed.

Lemma print_array_render (arr : list Z) :
  arr <> [] -> C.print_array arr (length arr) = Some (render arr).
Proof.
  intros Hne. destruct (exists_last Hne) as (l & x & ->).
  unfold C.print_array.
  replace (C.size_t_pred (length (l ++ [x]))) with (Z.of_nat (length l))
    by (rewrite length_app, Nat.add_1_r; reflexivity).
  destruct (print_loop_render l [] x "" (length (l ++ [x])))
    as (out' & Hrun & Hout); [rewrite length_app; lia|].
  simpl in Hrun. rewrite Hrun, Nat2Z.id.
  rewrite list_lookup_middle by reflexivity.
  now rewrite Hout.
Qed.

Lemma cpp_print_loop_render l : forall pre out,
  l <> [] ->
  Cpp.print_loop (length l) (Z.of_nat (length pre)) (pre ++ l)
    (Z.of_nat (length (pre ++ l))) out
  = Some (out ++ render l)%string.
Proof.
  induction l as [|a l IH]; intros pre out Hne; [congruence|].
  cbn [length Cpp.print_loop]. rewrite Nat2Z.id.
  rewrite list_lookup_middle by reflexivity.
  destruct l as [|b l].
  - replace (Z.of_nat (length pre) =? Z.of_nat (length (pre ++ [a])) - 1)
      with true
      by (symmetry; apply Z.eqb_eq; rewrite length_app; simpl; lia).
    simpl. unfold render. simpl. reflexivity.
  - replace (Z.of_nat (length pre)
             =? Z.of_nat (length (pre ++ a :: b :: l)) - 1)
      with false
      by (symmetry; apply Z.eqb_neq; rewrite length_app; simpl; lia).
    assert (Hbl : b :: l <> []) by discriminate.
    specialize (IH (pre ++ [a])%list
                   (out ++ string_of_Z a ++ ", ")%string Hbl).
    rewrite <- app_assoc in IH. simpl app in IH.
    replace (Z.of_nat (length pre) + 1)
      with (Z.of_nat (length (pre ++ [a])))
      by (rewrite length_app; simpl; lia).
    rewrite IH, (render_cons a (b :: l) Hbl).
    now rewrite !append_assoc.
Qed.

Lemma print_render (v : list Z) :
  v <> [] -> Cpp.print v (Z.of_nat (length v)) = Some (render v).
Proof.
  intros Hne. unfold Cpp.print. rewrite Nat2Z.id.
  apply (cpp_print_loop_render v [] "" Hne).
Qed.

End PrintFacts.

(** ** The C parser *)

Section ParserFacts.
Import Libc.

Lemma malloc_length junk n : length (C.malloc junk n) = n.
Proof. unfold C.malloc. now rewrite length_map, length_seq. Qed.

Lemma find_numbers_length lc tokens : forall arr i arr',
  C.find_numbers lc tokens arr i = Some arr' -> length arr' = length arr.
Proof.
  induction tokens as [|token rest IH]; intros arr i arr'; simpl.
  - now intros [= ->].
  - destruct (strtol lc token) as [temp_num errno].
    destruct (negb (errno =? 0)); [discriminate|].
    intros H. apply IH in H. now rewrite length_insert in H.
Qed.

(** A token on which [strtol] sets [errno] ends the parse. *)
Lemma find_numbers_errno lc tokens : forall arr i token,
  In token tokens -> snd (strtol lc token) <> 0 ->
  C.find_numbers lc tokens arr i = None.
Proof.
  induction tokens as [|t rest IH]; intros arr i token Hin Herr; simpl.
  - destruct Hin.
  - destruct (strtol lc t) as [temp_num errno] eqn:Ht.
    destruct (Z.eqb_spec errno 0) as [->|Hne]; simpl; [|reflexivity].
    destruct Hin as [->|Hin]; [|now apply (IH _ _ token)].
    rewrite Ht in Herr. simpl in Herr. congruence.
Qed.

(** There is never a token more than commas plus one, so every write
    at [curr_index] falls inside the allocated array. *)
Lemma strtok_count s : forall token,
  (length (strtok_from "," s token) <= S (C.count_commas s))%nat.
Proof.
  induction s as [|c s IH]; intros token; simpl.
  - destruct token; simpl; lia.
  - destruct (Ascii.eqb c ","); [|apply IH].
    destruct token; simpl; specialize (IH EmptyString); lia.
Qed.

(** When every token converts, the values fill the array from [curr_index]
    on and the cells behind them keep what they held. *)
Lemma find_numbers_fills lc tokens : forall pre rest,
  (length tokens <= length rest)%nat ->
  Forall (fun token => snd (strtol lc token) = 0) tokens ->
  C.find_numbers lc tokens (pre ++ rest) (length pre)
  = Some (pre ++ map (fun token => fst (strtol lc token)) tokens
              ++ drop (length tokens) rest)%list.
Proof.
  induction tokens as [|token tokens IH]; intros pre rest Hlen Hok.
  - reflexivity.
  - destruct rest as [|r rest]; [simpl in Hlen; lia|].
    inversion Hok as [|? ? Htoken Hrest]; subst.
    cbn [C.find_numbers map length drop].
    destruct (strtol lc token) as [temp_num errno].
    simpl in Htoken. subst errno. cbn [Z.eqb negb fst].
    rewrite (insert_app_r_alt pre _ (length pre)) by lia.
    rewrite Nat.sub_diag. cbn [insert list_insert].
    replace (pre ++ temp_num :: rest)%list
      with ((pre ++ [temp_num]) ++ rest)%list by now rewrite <- app_assoc.
    replace (S (length pre)) with (length (pre ++ [temp_num]))
      by (rewrite length_app; simpl; lia).
    rewrite IH by (simpl in Hlen; lia || assumption).
    rewrite <- app_assoc. reflexivity.
Qed.

(** The whole of [parse_list] when at least one comma is present and every
    token converts: the count is the number of commas plus one, whatever the
    number of tokens, and the cells no token reached are uninitialised. *)
Lemma parse_list_spec lc junk s :
  C.count_commas s <> 0%nat ->
  Forall (fun token => snd (strtol lc token) = 0) (strtok_all "," s) ->
  C.parse_list lc junk s
  = (S (C.count_commas s),
     Some (map (fun token => fst (strtol lc token)) (strtok_all "," s)
           ++ drop (length (strtok_all "," s))
                (C.malloc junk (S (C.count_commas s))))%list).
Proof.
  intros Hcommas Hok. unfold C.parse_list.
  destruct (Nat.eqb_spec (C.count_commas s) 0); [contradiction|].
  pose proof (find_numbers_fills lc (strtok_all "," s) []
                (C.malloc junk (S (C.count_commas s)))) as Hfill.
  simpl app in Hfill. change (length []) with 0%nat in Hfill.
  rewrite Hfill; [reflexivity | | assumption].
  rewrite malloc_length. apply strtok_count.
Qed.

Lemma parse_list_no_comma lc junk s :
  C.count_commas s = 0%nat -> C.parse_list lc junk s = (0%nat, None).
Proof. unfold C.parse_list. now intros ->. Qed.

Lemma parse_list_some lc junk s n arr :
  C.parse_list lc junk s = (n, Some arr) ->
  n = S (C.count_commas s) /\ length arr = n /\ (2 <= n)%nat.
Proof.
  unfold C.parse_list.
  destruct (Nat.eqb_spec (C.count_commas s) 0) as [|Hne]; [discriminate|].
  destruct (C.find_numbers _ _ _ _) as [arr'|] eqn:Hfind; [|discriminate].
  intros [= <- <-]. apply find_numbers_length in Hfind.
  rewrite malloc_length in Hfind. repeat split; [assumption | lia].
Qed.

Lemma parse_list_zero lc junk s arr :
  C.parse_list lc junk s = (0%nat, arr) -> arr = None.
Proof.
  unfold C.parse_list.
  destruct (C.count_commas s =? 0)%nat; [now intros [= <-]|].
  destruct (C.find_numbers _ _ _ _); [discriminate | now intros [= <-]].
Qed.

Lemma parse_list_nonzero lc junk s n arr :
  C.parse_list lc junk s = (n, arr) -> n <> 0%nat ->
  exists a, arr = Some a.
Proof.
  unfold C.parse_list.
  destruct (C.count_commas s =? 0)%nat; [intros [= <- <-]; congruence|].
  destruct (C.find_numbers _ _ _ _) as [a|];
    intros [= <- <-]; [eauto | congruence].
Qed.

End ParserFacts.

(** ** The two [main] functions *)

Section MainFacts.
Import Libc.

Lemma main_no_argument fuel lc junk argv :
  (length argv < 2)%nat -> C.main fuel lc junk argv = Done C.usage_run.
Proof.
  intros H. unfold C.main.
  destruct (Z.ltb_spec (Z.of_nat (length argv)) 2); [reflexivity | lia].
Qed.

Lemma main_parse_failure fuel lc junk argv :
  fst (C.parse_list lc junk (nth 1 argv "")) = 0%nat ->
  C.main fuel lc junk argv = Done C.usage_run.
Proof.
  intros H. unfold C.main.
  destruct (Z.of_nat (length argv) <? 2); [reflexivity|].
  destruct (C.parse_list lc junk (nth 1 argv "")) as [n arr].
  simpl in H. now subst n.
Qed.

Lemma main_success fuel lc junk argv n arr :
  (2 <= length argv)%nat ->
  C.parse_list lc junk (nth 1 argv "") = (n, Some arr) ->
  (n <= fuel)%nat ->
  exists sorted,
    C.main fuel lc junk argv = Done (Run 0 (render sorted) "")
    /\ Permutation arr sorted /\ Sorted Z.le sorted.
Proof.
  intros Hargc Hparse Hfuel. unfold C.main.
  destruct (Z.ltb_spec (Z.of_nat (length argv)) 2); [lia|].
  rewrite Hparse.
  destruct (parse_list_some _ _ _ _ _ Hparse) as (_ & Hlen & Hn).
  destruct (Nat.eqb_spec n 0); [lia|].
  assert (Hne : arr <> []) by (destruct arr; [simpl in Hlen; lia | discriminate]).
  subst n.
  destruct (bubble_sort_sorts arr fuel Hne Hfuel) as (sorted & -> & Hperm & Hs).
  exists sorted.
  rewrite (Permutation_length Hperm), print_array_render.
  - repeat split; assumption.
  - intros ->. symmetry in Hperm. apply Permutation_nil in Hperm.
    contradiction.
Qed.

Lemma cpp_main_usage argv :
  (length (Cpp.read_numbers argv) < 2)%nat ->
  Cpp.main argv = Done Cpp.usage_run.
Proof.
  intros H. unfold Cpp.main.
  destruct (Z.ltb_spec (Z.of_nat (length (Cpp.read_numbers argv))) 2);
    [reflexivity | lia].
Qed.

Lemma cpp_main_success argv :
  (2 <= length (Cpp.read_numbers argv))%nat ->
  exists sorted,
    Cpp.main argv = Done (Run 0 (render sorted) "")
    /\ Permutation (Cpp.read_numbers argv) sorted /\ Sorted Z.le sorted.
Proof.
  intros H. unfold Cpp.main.
  destruct (Z.ltb_spec (Z.of_nat (length (Cpp.read_numbers argv))) 2); [lia|].
  destruct (bubbleSort_sorts (Cpp.read_numbers argv))
    as (sorted & -> & Hperm & Hs).
  exists sorted.
  rewrite (Permutation_length Hperm), print_render.
  - repeat split; assumption.
  - intros ->. symmetry in Hperm. apply Permutation_nil in Hperm.
    rewrite Hperm in H. simpl in H. lia.
Qed.

Lemma read_numbers_argc argv :
  length argv <> 2%nat -> Cpp.read_numbers argv = [].
Proof.
  intros H. unfold Cpp.read_numbers.
  destruct (Z.eqb_spec (Z.of_nat (length argv)) 2); [lia | reflexivity].
Qed.

End MainFacts.

(** ** Further facts about the loops and the tokenizer *)

Section LoopFacts.
Import Libc.

Lemma bubble_sort_more_fuel fuel : forall arr n arr' fuel',
  C.bubble_sort fuel arr n = Done arr' -> (fuel <= fuel')%nat ->
  C.bubble_sort fuel' arr n = Done arr'.
Proof.
  induction fuel as [|fuel IH]; intros arr n arr' fuel' Hrun Hle;
    [discriminate|].
  destruct fuel' as [|fuel']; [lia|].
  cbn [C.bubble_sort] in *.
  destruct (C.bubble_pass _ _ _ _ _) as [[a [|]]|]; try discriminate.
  - apply (IH _ _ _ _ Hrun). lia.
  - assumption.
Qed.

(** With no element the bound [num_elems - 1] is [SIZE_MAX] and the first
    round already reads outside the array. *)
Lemma bubble_sort_empty fuel : C.bubble_sort (S fuel) [] 0 = Undefined.
Proof. reflexivity. Qed.

Lemma check_format_spec rounds : forall characters index b,
  Cpp.check_format rounds characters index b = true ->
  forall k, (k < rounds)%nat ->
    (index + 3 * k < String.length characters)%nat ->
    char_at characters (index + 3 * k) = ","%char
    /\ char_at characters (index + 3 * k + 1) = " "%char.
Proof.
  induction rounds as [|rounds IH]; intros characters index b Hrun k Hk Hlt;
    [lia|].
  cbn [Cpp.check_format] in Hrun.
  destruct (Nat.ltb_spec index (String.length characters)); [|lia].
  destruct (Ascii.eqb (char_at characters index) ",") eqn:E1;
    [|discriminate].
  destruct (Ascii.eqb (char_at characters (index + 1)) " ") eqn:E2;
    [|discriminate].
  simpl in Hrun. apply Ascii.eqb_eq in E1, E2.
  destruct k as [|k].
  - rewrite Nat.mul_0_r, Nat.add_0_r. now split.
  - replace (index + 3 * S k)%nat with (index + 3 + 3 * k)%nat by lia.
    apply (IH _ _ _ Hrun); lia.
Qed.

(** Once [index] has left the string further rounds change nothing, so the
    [strlen(characters)] rounds given to the loop are enough. *)
Lemma check_format_enough rounds : forall rounds' characters index b,
  (String.length characters <= index + 3 * rounds)%nat ->
  (String.length characters <= index + 3 * rounds')%nat ->
  Cpp.check_format rounds characters index b
  = Cpp.check_format rounds' characters index b.
Proof.
  induction rounds as [|rounds IH]; intros rounds' characters index b H H'.
  - destruct rounds' as [|rounds']; [reflexivity|]. cbn [Cpp.check_format].
    destruct (Nat.ltb_spec index (String.length characters));
      [lia | reflexivity].
  - cbn [Cpp.check_format].
    destruct (Nat.ltb_spec index (String.length characters)) as [Hlt|Hge].
    + destruct rounds' as [|rounds']; [lia|]. cbn [Cpp.check_format].
      destruct (Nat.ltb_spec index (String.length characters)); [|lia].
      destruct (_ && _); [apply IH; lia | reflexivity].
    + destruct rounds' as [|rounds']; [reflexivity|]. cbn [Cpp.check_format].
      destruct (Nat.ltb_spec index (String.length characters));
        [lia | reflexivity].
Qed.

(** A comma ends the token being read, whatever follows it. *)
Lemma strtok_from_comma d s : forall token rest,
  strtok_from d (s ++ String d rest) token
  = (strtok_from d s token ++ strtok_all d rest)%list.
Proof.
  induction s as [|c s IH]; intros token rest; simpl.
  - rewrite Ascii.eqb_refl. now destruct token.
  - destruct (Ascii.eqb c d); [|apply IH].
    destruct token; rewrite IH; reflexivity.
Qed.

Lemma strtol_skips_space lc c token :
  isspace c = true -> strtol lc (String c token) = strtol lc token.
Proof.
  intros Hc. unfold strtol, numeric_value. simpl. now rewrite Hc.
Qed.

(** Once the flag is set it stays set. *)
Lemma inner_loop_flag_true iters : forall j v v' s,
  Cpp.inner_loop iters j v true = Some (v', s) -> s = true.
Proof.
  induction iters as [|iters IH]; intros j v v' s; cbn [Cpp.inner_loop].
  - now intros [= _ <-].
  - destruct (v !! j) as [a|]; [|discriminate].
    destruct (v !! S j) as [c|]; [|discriminate].
    destruct (a >? c); [|apply IH].
    destruct (Cpp.swap v j (S j)); [apply IH | discriminate].
Qed.

(** A pass that reports no swap has left the vector as it was. *)
Lemma inner_loop_no_swap iters : forall j v b v',
  Cpp.inner_loop iters j v b = Some (v', false) -> v' = v /\ b = false.
Proof.
  induction iters as [|iters IH]; intros j v b v'; cbn [Cpp.inner_loop].
  - now intros [= -> ->].
  - destruct (v !! j) as [a|]; [|discriminate].
    destruct (v !! S j) as [c|]; [|discriminate].
    destruct (a >? c); [|apply IH].
    destruct (Cpp.swap v j (S j)); [|discriminate].
    intros H. apply inner_loop_flag_true in H. discriminate.
Qed.

(** The ghost values do not change what the loop computes. *)
Lemma outer_loop_passes_array iters : forall i v n,
  Cpp.outer_loop iters i v n
  = match Cpp.outer_loop_passes iters i v n with
    | Some (v', _, _) => Some v'
    | None => None
    end.
Proof.
  induction iters as [|iters IH]; intros i v n;
    cbn [Cpp.outer_loop Cpp.outer_loop_passes]; [reflexivity|].
  destruct (Cpp.inner_loop _ _ _ _) as [[w [|]]|]; cbn [negb];
    [|reflexivity..].
  rewrite IH.
  now destruct (Cpp.outer_loop_passes iters (i + 1) w n) as [[[? ?] ?]|].
Qed.

(** How many passes the outer loop makes and how it is left: never more
    than its counter allows; by [break] only after a pass, the last one, that
    made no swap; otherwise with the counter used up. *)
Lemma outer_loop_passes_exit iters : forall i v n v' passes how,
  Cpp.outer_loop_passes iters i v n = Some (v', passes, how) ->
  (passes <= iters)%nat
  /\ match how with
     | Cpp.Break =>
         (1 <= passes)%nat
         /\ Cpp.inner_loop (Z.to_nat (n - (i + Z.of_nat passes - 1) - 1)) 0 v'
              false
            = Some (v', false)
     | Cpp.ConditionFailed => passes = iters
     end.
Proof.
  induction iters as [|iters IH]; intros i v n v' passes how;
    cbn [Cpp.outer_loop_passes].
  - intros [= <- <- <-]. split; [lia | reflexivity].
  - destruct (Cpp.inner_loop (Z.to_nat (n - i - 1)) 0 v false)
      as [[w [|]]|] eqn:Hpass; cbn [negb]; [| |discriminate].
    + destruct (Cpp.outer_loop_passes iters (i + 1) w n)
        as [[[v'' p] h]|] eqn:Hrec; [|discriminate].
      intros [= <- <- <-].
      destruct (IH _ _ _ _ _ _ Hrec) as [Hle Hhow]. split; [lia|].
      destruct h.
      * destruct Hhow as [H1 Hlast]. split; [lia|].
        replace (n - (i + Z.of_nat (S p) - 1) - 1)
          with (n - (i + 1 + Z.of_nat p - 1) - 1) by lia.
        exact Hlast.
      * now subst p.
    + intros [= <- <- <-].
      destruct (inner_loop_no_swap _ _ _ _ _ Hpass) as [-> _].
      split; [lia|]. split; [lia|].
      replace (n - (i + Z.of_nat 1 - 1) - 1) with (n - i - 1) by lia.
      exact Hpass.
Qed.

End LoopFacts.

(** ** The properties stated by the specification *)

Import Libc.

(** C1.  Whenever the parser accepts the argument, what the program writes to
    standard output is the rendering of a sequence that is a permutation of
    the parsed one and is in non-decreasing order.  For [source.c] the
    parser accepts when [parse_list] returns a non-zero count with its array;
    for [source.cpp] when at least two numbers were read. *)
Theorem printed_is_sorted_permutation :
  (forall fuel lc junk argv n arr,
      (2 <= length argv)%nat ->
      C.parse_list lc junk (nth 1 argv "") = (n, Some arr) ->
      (n <= fuel)%nat ->
      exists sorted,
        C.main fuel lc junk argv = Done (Run 0 (render sorted) "")
        /\ Permutation arr sorted /\ Sorted Z.le sorted)
  /\ (forall argv,
      (2 <= length (Cpp.read_numbers argv))%nat ->
      exists sorted,
        Cpp.main argv = Done (Run 0 (render sorted) "")
        /\ Permutation (Cpp.read_numbers argv) sorted /\ Sorted Z.le sorted).
Proof.
  split.
  - intros fuel lc junk argv n arr. apply main_success.
  - apply cpp_main_success.
Qed.

Lemma printed_is_sorted_permutation_witness :
  (exists sorted,
      C.main 5 ISO_C (fun _ => 0) ["sort"; "5,3,1,2,4"]
      = Done (Run 0 (render sorted) "")
      /\ Permutation [5; 3; 1; 2; 4] sorted /\ Sorted Z.le sorted)
  /\ (exists sorted,
      Cpp.main ["sort"; "5, 3, 1, 2, 4"] = Done (Run 0 (render sorted) "")
      /\ Permutation (Cpp.read_numbers ["sort"; "5, 3, 1, 2, 4"]) sorted
      /\ Sorted Z.le sorted).
Proof.
  split.
  - apply (proj1 printed_is_sorted_permutation 5%nat ISO_C (fun _ => 0)
             ["sort"; "5,3,1,2,4"] 5%nat [5; 3; 1; 2; 4]);
      [simpl; lia | reflexivity | lia].
  - apply (proj2 printed_is_sorted_permutation ["sort"; "5, 3, 1, 2, 4"]).
    vm_compute. lia.
Defined.

(** C2.  A token that is not a number does not make [parse_list] fail:
    [strtol] is called without an end pointer and [errno] is the only thing
    looked at.  With an ISO C [strtol] the argument "a,b" is parsed as two
    zeros, sorted and printed with exit status 0; a token such as "1a" is
    read as 1 by every [strtol].  Only a library that sets [EINVAL] when
    nothing was converted sends "a,b" to the usage path. *)
Theorem non_numeric_token_is_parsed junk :
  C.parse_list ISO_C junk "a,b" = (2%nat, Some [0; 0])
  /\ C.main 2 ISO_C junk ["sort"; "a,b"]
     = Done (Run 0 ("0, 0" ++ newline) "")
  /\ (forall lc,
        C.parse_list lc junk "1a,2" = (2%nat, Some [1; 2])
        /\ C.main 2 lc junk ["sort"; "1a,2"]
           = Done (Run 0 ("1, 2" ++ newline) ""))
  /\ C.main 2 POSIX_EINVAL junk ["sort"; "a,b"] = Done C.usage_run.
Proof.
  repeat split; try reflexivity; destruct lc; reflexivity.
Qed.

(** C3, counterexample.  Started without an argument, the C++ program writes
    the usage line to standard output, leaves standard error empty and
    returns 0. *)
Lemma cpp_usage_goes_to_stdout_with_status_0 :
  Cpp.main ["sort"] = Done (Run 0 (usage_text ++ newline) "")
  /\ Cpp.main ["sort"] <> Done (Run 1 "" (usage_text ++ newline)).
Proof. split; [reflexivity | discriminate]. Qed.

(** C3, as amended.  In [source.c] every run ends in one of two ways: status
    1 with the usage line on standard error and nothing on standard output,
    exactly when there is no argument or [parse_list] returns 0; otherwise
    status 0 with the sorted list on standard output and nothing on standard
    error.  In [source.cpp] every run returns 0 and writes to standard output
    only: the usage line when fewer than two numbers were read, the sorted
    list otherwise. *)
Theorem exit_status_and_streams :
  (forall fuel lc junk argv,
      (C.count_commas (nth 1 argv "") < fuel)%nat ->
      let failure :=
        (length argv < 2)%nat
        \/ fst (C.parse_list lc junk (nth 1 argv "")) = 0%nat in
      (failure ->
         C.main fuel lc junk argv = Done (Run 1 "" (usage_text ++ newline)))
      /\ (~ failure ->
         exists arr sorted,
           snd (C.parse_list lc junk (nth 1 argv "")) = Some arr
           /\ C.main fuel lc junk argv = Done (Run 0 (render sorted) "")
           /\ Permutation arr sorted /\ Sorted Z.le sorted))
  /\ (forall argv,
      ((length (Cpp.read_numbers argv) < 2)%nat ->
         Cpp.main argv = Done (Run 0 (usage_text ++ newline) ""))
      /\ ((2 <= length (Cpp.read_numbers argv))%nat ->
         exists sorted,
           Cpp.main argv = Done (Run 0 (render sorted) "")
           /\ Permutation (Cpp.read_numbers argv) sorted
           /\ Sorted Z.le sorted)).
Proof.
  split.
  - intros fuel lc junk argv Hfuel failure. subst failure. split.
    + intros [Hargc|Hparse];
        [now apply main_no_argument | now apply main_parse_failure].
    + intros Hok.
      destruct (C.parse_list lc junk (nth 1 argv "")) as [n arr] eqn:Hparse.
      simpl in Hok.
      assert (Hn : n <> 0%nat) by tauto.
      destruct (parse_list_nonzero _ _ _ _ _ Hparse Hn) as [a ->].
      destruct (parse_list_some _ _ _ _ _ Hparse) as (Hc & _ & _).
      destruct (main_success fuel lc junk argv n a) as (sorted & Hrun & Hp & Hs);
        [lia | assumption | lia |].
      exists a, sorted. now repeat split.
  - intros argv. split; [apply cpp_main_usage | apply cpp_main_success].
Qed.

Lemma exit_status_and_streams_witness :
  C.main 3 ISO_C (fun _ => 0) ["sort"; "3"]
  = Done (Run 1 "" (usage_text ++ newline))
  /\ (exists arr sorted,
        snd (C.parse_list ISO_C (fun _ => 0) "2,1") = Some arr
        /\ C.main 3 ISO_C (fun _ => 0) ["sort"; "2,1"]
           = Done (Run 0 (render sorted) "")
        /\ Permutation arr sorted /\ Sorted Z.le sorted)
  /\ Cpp.main ["sort"; "3"] = Done (Run 0 (usage_text ++ newline) "")
  /\ (exists sorted,
        Cpp.main ["sort"; "2, 1"] = Done (Run 0 (render sorted) "")
        /\ Permutation (Cpp.read_numbers ["sort"; "2, 1"]) sorted
        /\ Sorted Z.le sorted).
Proof.
  split; [|split; [|split]].
  - apply (proj1 (proj1 exit_status_and_streams 3%nat ISO_C (fun _ => 0)
                    ["sort"; "3"] ltac:(simpl; lia))).
    right. reflexivity.
  - apply (proj2 (proj1 exit_status_and_streams 3%nat ISO_C (fun _ => 0)
                    ["sort"; "2,1"] ltac:(simpl; lia))).
    simpl. intros [H|H]; [lia | discriminate].
  - apply (proj1 (proj2 exit_status_and_streams ["sort"; "3"])).
    simpl. lia.
  - apply (proj2 (proj2 exit_status_and_streams ["sort"; "2, 1"])).
    vm_compute. lia.
Defined.

(** C4, counterexample.  With two arguments the C program does not take the
    usage path: it sorts the first argument and ignores the second. *)
Lemma c_main_ignores_extra_arguments :
  C.main 2 ISO_C (fun _ => 0) ["sort"; "2,1"; "extra"]
  = Done (Run 0 ("1, 2" ++ newline) "").
Proof. reflexivity. Qed.

(** C4, as amended.  [source.c] takes the usage path (status 1, usage line on
    standard error, nothing parsed, sorted or printed) when no argument is
    given, and with more than one argument behaves as if only the first had
    been given.  [source.cpp] reads no number and prints only the usage line
    (on standard output, status 0) whenever the argument count is not exactly
    one. *)
Theorem argument_count_check :
  (forall fuel lc junk argv,
      (length argv < 2)%nat ->
      C.main fuel lc junk argv = Done (Run 1 "" (usage_text ++ newline)))
  /\ (forall fuel lc junk prog arg extra,
      C.main fuel lc junk (prog :: arg :: extra)
      = C.main fuel lc junk [prog; arg])
  /\ (forall argv,
      length argv <> 2%nat ->
      Cpp.read_numbers argv = []
      /\ Cpp.main argv = Done (Run 0 (usage_text ++ newline) "")).
Proof.
  split; [|split].
  - apply main_no_argument.
  - intros fuel lc junk prog arg extra. unfold C.main.
    destruct (Z.ltb_spec (Z.of_nat (length (prog :: arg :: extra))) 2);
      [simpl in *; lia | reflexivity].
  - intros argv H. split; [now apply read_numbers_argc|].
    apply cpp_main_usage. rewrite read_numbers_argc by assumption.
    simpl. lia.
Qed.

Lemma argument_count_check_witness :
  C.main 1 ISO_C (fun _ => 0) ["sort"]
  = Done (Run 1 "" (usage_text ++ newline))
  /\ Cpp.read_numbers ["sort"; "2, 1"; "extra"] = []
  /\ Cpp.main ["sort"; "2, 1"; "extra"]
     = Done (Run 0 (usage_text ++ newline) "").
Proof.
  split.
  - apply (proj1 argument_count_check 1%nat ISO_C (fun _ => 0) ["sort"]).
    simpl. lia.
  - apply (proj2 (proj2 argument_count_check) ["sort"; "2, 1"; "extra"]).
    simpl. lia.
Defined.

(** C5, counterexample.  The C++ program refuses the list written with bare
    commas. *)
Lemma cpp_rejects_bare_commas :
  Cpp.main ["sort"; "5,3,1,2,4"] = Done (Run 0 (usage_text ++ newline) "").
Proof. reflexivity. Qed.

(** C5, as amended.  The parser of [source.c] splits at every comma, whatever
    follows it, and [strtol] skips the white space a token starts with; the C
    program prints "1, 2, 3, 4, 5" for "5,3,1,2,4" as for "5, 3, 1, 2, 4".
    The C++ program prints that line for "5, 3, 1, 2, 4" only. *)
Theorem bare_comma_delimiter :
  (forall a b,
      strtok_all "," (a ++ String "," b)
      = (strtok_all "," a ++ strtok_all "," b)%list)
  /\ (forall lc token, strtol lc (String " " token) = strtol lc token)
  /\ (forall fuel lc junk,
        C.main (5 + fuel) lc junk ["sort"; "5,3,1,2,4"]
        = Done (Run 0 ("1, 2, 3, 4, 5" ++ newline) "")
        /\ C.main (5 + fuel) lc junk ["sort"; "5, 3, 1, 2, 4"]
           = Done (Run 0 ("1, 2, 3, 4, 5" ++ newline) ""))
  /\ Cpp.main ["sort"; "5, 3, 1, 2, 4"]
     = Done (Run 0 ("1, 2, 3, 4, 5" ++ newline) "").
Proof.
  split; [|split; [|split]].
  - intros a b. apply strtok_from_comma.
  - intros lc token. now apply strtol_skips_space.
  - intros fuel lc junk. destruct lc; split; reflexivity.
  - reflexivity.
Qed.

(** C6.  An argument with a comma but fewer than two tokens is accepted:
    [parse_list] returns the number of commas plus one, not the number of
    tokens converted.  For "3," the one token fills the first cell, the
    second keeps what [malloc] left there, and the program sorts and prints
    both with status 0. *)
Theorem single_token_with_comma_is_accepted lc junk :
  strtok_all "," "3," = ["3"]
  /\ C.parse_list lc junk "3," = (2%nat, Some [3; junk 1%nat])
  /\ C.main 2 lc (fun _ => 7) ["sort"; "3,"]
     = Done (Run 0 ("3, 7" ++ newline) "")
  /\ C.main 2 lc junk ["sort"; "3"] = Done C.usage_run.
Proof.
  destruct lc; repeat split; reflexivity.
Qed.

(** C7.  If some token of the argument denotes an integer outside the range
    of [long], [parse_list] returns 0 with a null array and the program takes
    the usage path. *)
Theorem overflowing_token_fails_parse fuel lc junk argv token v :
  In token (strtok_all "," (nth 1 argv "")) ->
  numeric_value token = Some v ->
  v < LONG_MIN \/ LONG_MAX < v ->
  C.parse_list lc junk (nth 1 argv "") = (0%nat, None)
  /\ C.main fuel lc junk argv = Done (Run 1 "" (usage_text ++ newline)).
Proof.
  intros Hin Hval Hrange.
  assert (Hparse : C.parse_list lc junk (nth 1 argv "") = (0%nat, None)).
  { unfold C.parse_list.
    destruct (C.count_commas (nth 1 argv "") =? 0)%nat; [reflexivity|].
    rewrite (find_numbers_errno lc _ _ _ token Hin); [reflexivity|].
    unfold strtol. rewrite Hval.
    destruct (Z.gtb_spec v LONG_MAX); [discriminate|].
    destruct (Z.ltb_spec v LONG_MIN); [discriminate | lia]. }
  split; [assumption|].
  apply main_parse_failure. now rewrite Hparse.
Qed.

Lemma overflowing_token_fails_parse_witness :
  C.parse_list ISO_C (fun _ => 0) "1,9223372036854775808" = (0%nat, None)
  /\ C.main 2 ISO_C (fun _ => 0) ["sort"; "1,9223372036854775808"]
     = Done (Run 1 "" (usage_text ++ newline)).
Proof.
  apply (overflowing_token_fails_parse 2%nat ISO_C (fun _ => 0)
           ["sort"; "1,9223372036854775808"] "9223372036854775808"
           9223372036854775808).
  - simpl. right. left. reflexivity.
  - reflexivity.
  - right. unfold LONG_MAX. lia.
Defined.

(** C8, counterexample.  The C++ program, given "2, 1", reads the elements 2
    and 1; its sorter makes one pass, which swaps, and leaves its loop
    because the pass counter is used up: no pass without a swap is ever
    made.  The C sorter, were it called on an empty array, would compute its
    bound [num_elems - 1] in [size_t], get [SIZE_MAX], and read outside the
    array in the first round of its first pass. *)
Lemma sorter_loop_exits_differ :
  Cpp.read_numbers ["sort"; "2, 1"] = [2; 1]
  /\ Cpp.inner_loop 1 0 [2; 1] false = Some ([1; 2], true)
  /\ Cpp.bubbleSort [2; 1] 2 = Some [1; 2]
  /\ Cpp.bubbleSort_passes [2; 1] 2
     = Some ([1; 2], 1%nat, Cpp.ConditionFailed)
  /\ C.bubble_sort 1 [] 0 = Undefined.
Proof.
  repeat (split; [reflexivity|]). apply bubble_sort_empty.
Qed.

(** C8, as amended.  On every array of at least one element the C sorter
    finishes within as many passes as there are elements, a larger budget
    changes nothing, and it stops on an array over which a full pass makes no
    swap.  The C++ sorter returns a vector for every input vector, after at
    most n - 1 passes: it leaves its outer loop either by [break], after a
    last pass that made no swap, or with exactly n - 1 passes made. *)
Theorem sorters_terminate :
  (forall arr fuel,
      arr <> [] -> (length arr <= fuel)%nat ->
      exists arr',
        C.bubble_sort fuel arr (length arr) = Done arr'
        /\ C.bubble_sort (length arr) arr (length arr) = Done arr'
        /\ C.bubble_pass (length arr') 0 (C.size_t_pred (length arr)) arr'
             false
           = Some (arr', false))
  /\ (forall v : list Z,
      exists v' passes how,
        Cpp.bubbleSort v (Z.of_nat (length v)) = Some v'
        /\ Cpp.bubbleSort_passes v (Z.of_nat (length v))
           = Some (v', passes, how)
        /\ (passes <= length v - 1)%nat
        /\ match how with
           | Cpp.Break =>
               (1 <= passes)%nat
               /\ Cpp.inner_loop
                    (Z.to_nat (Z.of_nat (length v) - Z.of_nat passes)) 0 v'
                    false
                  = Some (v', false)
           | Cpp.ConditionFailed => passes = (length v - 1)%nat
           end).
Proof.
  split.
  - intros arr fuel Hne Hfuel.
    destruct (bubble_sort_sorts arr (length arr) Hne (Nat.le_refl _))
      as (arr' & Hrun & Hperm & Hs).
    exists arr'. split; [|split].
    + now apply (bubble_sort_more_fuel _ _ _ _ _ Hrun).
    + assumption.
    + rewrite (Permutation_length Hperm).
      apply sorted_pass_no_swap; [|assumption].
      intros ->. symmetry in Hperm. apply Permutation_nil in Hperm.
      contradiction.
  - intros v. destruct (bubbleSort_sorts v) as (v' & Hrun & _).
    pose proof Hrun as Hghost. unfold Cpp.bubbleSort in Hghost.
    rewrite outer_loop_passes_array in Hghost.
    destruct (Cpp.outer_loop_passes _ _ _ _) as [[[w passes] how]|] eqn:Hp;
      [|discriminate].
    injection Hghost as ->.
    destruct (outer_loop_passes_exit _ _ _ _ _ _ _ Hp) as [Hle Hhow].
    exists v', passes, how.
    split; [assumption|]. split; [exact Hp|]. split; [lia|].
    destruct how.
    + destruct Hhow as [H1 Hlast]. split; [assumption|].
      replace (Z.of_nat (length v) - Z.of_nat passes)
        with (Z.of_nat (length v) - (0 + Z.of_nat passes - 1) - 1) by lia.
      exact Hlast.
    + lia.
Qed.

Lemma sorters_terminate_witness :
  exists arr',
    C.bubble_sort 4 [3; 1; 2] 3 = Done arr'
    /\ C.bubble_sort 3 [3; 1; 2] 3 = Done arr'
    /\ C.bubble_pass (length arr') 0 2 arr' false = Some (arr', false).
Proof.
  apply (proj1 sorters_terminate [3; 1; 2] 4%nat); [discriminate | simpl; lia].
Defined.

(** C9.  Sorting is idempotent.  Every array the C sorter is handed has at
    least one element ([main] only calls it with what [parse_list] returned
    together with a non-zero count, which is at least two cells); run on
    such an array that is already in non-decreasing order, the sorter
    returns it unchanged, after one pass.  Run on any vector already in
    non-decreasing order, the C++ sorter returns it unchanged. *)
Theorem sorting_a_sorted_sequence :
  (forall arr fuel,
      arr <> [] -> Sorted Z.le arr -> (1 <= fuel)%nat ->
      C.bubble_sort fuel arr (length arr) = Done arr)
  /\ (forall v,
      Sorted Z.le v -> Cpp.bubbleSort v (Z.of_nat (length v)) = Some v)
  /\ (forall fuel lc junk orig_list num_elements arr,
      C.parse_list lc junk orig_list = (num_elements, Some arr) ->
      Sorted Z.le arr -> (1 <= fuel)%nat ->
      C.bubble_sort fuel arr num_elements = Done arr).
Proof.
  assert (Hc : forall arr fuel,
             arr <> [] -> Sorted Z.le arr -> (1 <= fuel)%nat ->
             C.bubble_sort fuel arr (length arr) = Done arr).
  { intros arr fuel Hne Hs Hfuel.
    destruct fuel as [|fuel]; [lia|]. cbn [C.bubble_sort].
    now rewrite (sorted_pass_no_swap _ Hne Hs). }
  split; [exact Hc|]. split.
  - intros v Hs. unfold Cpp.bubbleSort.
    destruct v as [|x [|y l]]; [reflexivity | reflexivity |].
    remember (y :: l) as l' eqn:El.
    assert (Hl : length l' = S (length l)) by (subst l'; reflexivity).
    replace (Z.to_nat (Z.of_nat (length (x :: l')) - 1))
      with (S (length l)) by (simpl; lia).
    cbn [Cpp.outer_loop].
    replace (Z.to_nat (Z.of_nat (length (x :: l')) - 0 - 1))
      with (length l') by (simpl; lia).
    pose proof (inner_loop_spec l' [] x [] false) as Hpass.
    simpl in Hpass. rewrite !app_nil_r in Hpass. rewrite Hpass.
    rewrite (sorted_swaps_false _ _ Hs).
    now rewrite (swaps_false_bubble _ _ (sorted_swaps_false _ _ Hs)).
  - intros fuel lc junk orig_list num_elements arr Hparse Hs Hfuel.
    destruct (parse_list_some _ _ _ _ _ Hparse) as (_ & Hlen & Hn).
    subst num_elements. apply Hc; [|assumption..].
    destruct arr; [simpl in Hn; lia | discriminate].
Qed.

Lemma sorting_a_sorted_sequence_witness :
  C.bubble_sort 1 [1; 2; 2] 3 = Done [1; 2; 2]
  /\ Cpp.bubbleSort [1; 2; 2] 3 = Some [1; 2; 2]
  /\ C.bubble_sort 1 [1; 2] 2 = Done [1; 2].
Proof.
  assert (Hs : Sorted Z.le [1; 2; 2]) by (repeat (constructor; try lia)).
  assert (Hs' : Sorted Z.le [1; 2]) by (repeat (constructor; try lia)).
  split; [|split].
  - apply (proj1 sorting_a_sorted_sequence [1; 2; 2] 1%nat);
      [discriminate | exact Hs | lia].
  - apply (proj1 (proj2 sorting_a_sorted_sequence) [1; 2; 2] Hs).
  - apply (proj2 (proj2 sorting_a_sorted_sequence) 1%nat ISO_C (fun _ => 0)
             "1,2" 2%nat [1; 2]); [reflexivity | exact Hs' | lia].
Defined.

(** C10.  The format check of [source.cpp] succeeds only if a comma followed
    by a space sits at index 1, 4, 7, ... as far as the argument reaches.
    The list of 10 and 20 written with that separator does not pass, and the
    program prints the usage line for it; [source.c] sorts and prints it. *)
Theorem cpp_format_every_third_character :
  (forall characters,
      Cpp.check_format (String.length characters) characters 1 false = true ->
      forall k,
        (1 + 3 * k < String.length characters)%nat ->
        char_at characters (1 + 3 * k) = ","%char
        /\ char_at characters (1 + 3 * k + 1) = " "%char)
  /\ String.concat ", " (map string_of_Z [10; 20]) = "10, 20"
  /\ Cpp.check_format 6 "10, 20" 1 false = false
  /\ Cpp.main ["sort"; "10, 20"] = Done (Run 0 (usage_text ++ newline) "")
  /\ (forall lc junk,
        C.main 2 lc junk ["sort"; "10, 20"]
        = Done (Run 0 ("10, 20" ++ newline) "")).
Proof.
  split; [|repeat split; try reflexivity; destruct lc; reflexivity].
  intros characters Hrun k Hk.
  apply (check_format_spec _ _ _ _ Hrun); lia.
Qed.

Lemma cpp_format_every_third_character_witness :
  char_at "1, 2, 3" 4 = ","%char /\ char_at "1, 2, 3" 5 = " "%char.
Proof.
  apply (proj1 cpp_format_every_third_character "1, 2, 3" eq_refl 1%nat).
  simpl. lia.
Defined.

(** ** Decimal text: what [printf("%ld")] writes, [strtol] reads back *)

Section DecimalFacts.

Lemma digit_not_space c : isdigit c = true -> isspace c = false.
Proof.
  destruct c as [[|] [|] [|] [|] [|] [|] [|] [|]];
    try discriminate; reflexivity.
Qed.

Lemma numeric_value_digit_head c s :
  isdigit c = true ->
  numeric_value (String c s) = Some (read_digits 0 (String c s))
  /\ numeric_value (String "-" (String c s))
     = Some (- read_digits 0 (String c s)).
Proof.
  destruct c as [[|] [|] [|] [|] [|] [|] [|] [|]];
    try discriminate; intros _; split; reflexivity.
Qed.

Lemma read_digits_stop acc s :
  starts_with_digit s = false -> read_digits acc s = acc.
Proof. destruct s as [|c s]; simpl; [reflexivity | now intros ->]. Qed.

Lemma read_digits_acc d : forall acc rest,
  read_digits (Z.pos acc) (NilEmpty.string_of_uint d ++ rest)
  = read_digits (Z.pos (Pos.of_uint_acc d acc)) rest.
Proof.
  induction d; intros acc rest; [reflexivity|..];
    cbn [NilEmpty.string_of_uint append read_digits Pos.of_uint_acc];
    (match goal with
     | |- context [isdigit ?c] => change (isdigit c) with true; cbv iota
     end);
    rewrite <- IHd; f_equal;
    (match goal with
     | |- context [digit_value ?c] =>
         let v := eval vm_compute in (digit_value c) in
         change (digit_value c) with v
     end);
    lia.
Qed.

Lemma read_digits_uint d : forall rest,
  read_digits 0 (NilEmpty.string_of_uint d ++ rest)
  = read_digits (Z.of_N (Pos.of_uint d)) rest.
Proof.
  induction d; intros rest; [reflexivity|..];
    cbn [NilEmpty.string_of_uint append read_digits Pos.of_uint];
    (match goal with
     | |- context [isdigit ?c] => change (isdigit c) with true; cbv iota
     end);
    [apply IHd | apply read_digits_acc ..].
Qed.

Lemma uint_head d :
  d <> Decimal.Nil ->
  exists c s, NilEmpty.string_of_uint d = String c s /\ isdigit c = true.
Proof.
  destruct d; [congruence|..]; intros _; eexists _, _; split; reflexivity.
Qed.

(** The text of [z], followed by anything that does not start with a digit,
    denotes [z]. *)
Lemma numeric_value_string_of_Z z rest :
  starts_with_digit rest = false ->
  numeric_value (string_of_Z z ++ rest) = Some z.
Proof.
  intros Hrest. unfold string_of_Z.
  destruct z as [|p|p]; cbn [Z.to_int NilZero.string_of_int].
  - simpl. unfold numeric_value. simpl. now rewrite read_digits_stop.
  - pose proof (DecimalPos.Unsigned.to_uint_nonnil p) as Hnil.
    unfold NilZero.string_of_uint.
    destruct (Pos.to_uint p) as [|u|u|u|u|u|u|u|u|u|u] eqn:E; [congruence|..];
      rewrite <- E in *;
      destruct (uint_head _ Hnil) as (c & s & Hs & Hc);
      rewrite Hs; cbn [append];
      rewrite (proj1 (numeric_value_digit_head c (s ++ rest) Hc));
      change (String c (s ++ rest)) with (String c s ++ rest)%string;
      rewrite <- Hs, read_digits_uint, DecimalPos.Unsigned.of_to;
      now rewrite read_digits_stop.
  - pose proof (DecimalPos.Unsigned.to_uint_nonnil p) as Hnil.
    unfold NilZero.string_of_uint.
    destruct (Pos.to_uint p) as [|u|u|u|u|u|u|u|u|u|u] eqn:E; [congruence|..];
      rewrite <- E in *;
      destruct (uint_head _ Hnil) as (c & s & Hs & Hc);
      rewrite Hs; cbn [append];
      rewrite (proj2 (numeric_value_digit_head c (s ++ rest) Hc));
      change (String c (s ++ rest)) with (String c s ++ rest)%string;
      rewrite <- Hs, read_digits_uint, DecimalPos.Unsigned.of_to;
      now rewrite read_digits_stop.
Qed.

End DecimalFacts.

(** ** Parsing a list that was written out *)

Section RoundTripFacts.

Lemma append_nil_r (s : string) : (s ++ "")%string = s.
Proof. induction s as [|c s IH]; simpl; [reflexivity | now rewrite IH]. Qed.

Lemma strtol_string_of_Z lc z rest :
  LONG_MIN <= z <= LONG_MAX ->
  starts_with_digit rest = false ->
  strtol lc (string_of_Z z ++ rest) = (z, 0).
Proof.
  intros Hrange Hrest. unfold strtol.
  rewrite (numeric_value_string_of_Z z rest Hrest).
  destruct (Z.gtb_spec z LONG_MAX); [lia|].
  destruct (Z.ltb_spec z LONG_MIN); [lia | reflexivity].
Qed.

Lemma skip_space_app pad s :
  skip_space pad = "" -> skip_space (pad ++ s) = skip_space s.
Proof.
  induction pad as [|c pad IH]; simpl; [reflexivity|].
  destruct (isspace c); [assumption | discriminate].
Qed.

Lemma strtol_skips_padding lc pad s :
  skip_space pad = "" -> strtol lc (pad ++ s) = strtol lc s.
Proof.
  intros Hpad. unfold strtol, numeric_value.
  now rewrite (skip_space_app pad s Hpad).
Qed.

Lemma space_not_comma c : isspace c = true -> Ascii.eqb c "," = false.
Proof.
  destruct c as [[|] [|] [|] [|] [|] [|] [|] [|]];
    try discriminate; reflexivity.
Qed.

Lemma padding_comma_free pad :
  skip_space pad = "" -> C.count_commas pad = 0%nat.
Proof.
  induction pad as [|c pad IH]; simpl; [reflexivity|].
  destruct (isspace c) eqn:Hc; [|discriminate].
  rewrite (space_not_comma c Hc). exact IH.
Qed.

Lemma strtok_comma_free t : forall s token,
  C.count_commas t = 0%nat ->
  strtok_from "," (t ++ s) token = strtok_from "," s (token ++ t).
Proof.
  induction t as [|c t IH]; intros s token Ht; simpl in *.
  - now rewrite append_nil_r.
  - destruct (Ascii.eqb c ","); [discriminate|].
    rewrite IH by assumption. now rewrite append_assoc.
Qed.

Lemma uint_comma_free d : C.count_commas (NilEmpty.string_of_uint d) = 0%nat.
Proof. induction d; simpl; auto. Qed.

Lemma string_of_Z_comma_free z : C.count_commas (string_of_Z z) = 0%nat.
Proof.
  unfold string_of_Z.
  destruct z as [|p|p]; cbn [Z.to_int NilZero.string_of_int];
    [reflexivity | |]; unfold NilZero.string_of_uint;
    destruct (Pos.to_uint p) eqn:E; try reflexivity;
    rewrite <- E; simpl; apply uint_comma_free.
Qed.

Lemma string_of_Z_head z : exists c s, string_of_Z z = String c s.
Proof.
  unfold string_of_Z.
  destruct z as [|p|p]; cbn [Z.to_int NilZero.string_of_int];
    [eexists _, _; reflexivity | | eexists _, _; reflexivity].
  unfold NilZero.string_of_uint.
  destruct (Pos.to_uint p); eexists _, _; reflexivity.
Qed.

Lemma strtok_last token :
  token <> "" -> strtok_from "," "" token = [token].
Proof. destruct token; [congruence | reflexivity]. Qed.

Lemma append_string_of_Z_nonempty token z :
  (token ++ string_of_Z z)%string <> "".
Proof.
  destruct (string_of_Z_head z) as (c & s & ->).
  destruct token; discriminate.
Qed.

(** The tokens of a written list: one per number, each after the first
    still carrying the padding that followed the comma. *)
Lemma strtok_written pad zs : forall z token,
  C.count_commas pad = 0%nat ->
  strtok_from ","
    (String.concat (String "," pad) (map string_of_Z (z :: zs))) token
  = (token ++ string_of_Z z)%string
    :: map (fun y => (pad ++ string_of_Z y)%string) zs.
Proof.
  induction zs as [|y zs IH]; intros z token Hpad.
  - cbn [map String.concat].
    rewrite <- (append_nil_r (string_of_Z z)) at 1.
    rewrite strtok_comma_free by apply string_of_Z_comma_free.
    apply strtok_last, append_string_of_Z_nonempty.
  - change (String.concat (String "," pad) (map string_of_Z (z :: y :: zs)))
      with (string_of_Z z
            ++ String ","
                 (pad ++ String.concat (String "," pad)
                           (map string_of_Z (y :: zs))))%string.
    rewrite strtok_comma_free by apply string_of_Z_comma_free.
    cbn [strtok_from]. rewrite Ascii.eqb_refl.
    destruct (token ++ string_of_Z z)%string eqn:E;
      [now apply append_string_of_Z_nonempty in E|].
    rewrite strtok_comma_free by assumption.
    rewrite (IH y _ Hpad). reflexivity.
Qed.

Lemma count_commas_app a b :
  C.count_commas (a ++ b) = (C.count_commas a + C.count_commas b)%nat.
Proof.
  induction a as [|c a IH]; simpl; [reflexivity|].
  destruct (Ascii.eqb c ","); simpl; now rewrite IH.
Qed.

Lemma count_commas_written pad zs : forall z,
  C.count_commas pad = 0%nat ->
  C.count_commas
    (String.concat (String "," pad) (map string_of_Z (z :: zs)))
  = length zs.
Proof.
  induction zs as [|y zs IH]; intros z Hpad.
  - apply string_of_Z_comma_free.
  - change (String.concat (String "," pad) (map string_of_Z (z :: y :: zs)))
      with (string_of_Z z
            ++ String ","
                 (pad ++ String.concat (String "," pad)
                           (map string_of_Z (y :: zs))))%string.
    rewrite count_commas_app, string_of_Z_comma_free. cbn [C.count_commas].
    rewrite Ascii.eqb_refl, count_commas_app, Hpad, (IH y Hpad).
    reflexivity.
Qed.

Lemma strtol_written lc pad z :
  skip_space pad = "" -> LONG_MIN <= z <= LONG_MAX ->
  strtol lc (pad ++ string_of_Z z) = (z, 0).
Proof.
  intros Hpad Hz. rewrite (strtol_skips_padding lc pad _ Hpad).
  rewrite <- (append_nil_r (string_of_Z z)).
  now apply strtol_string_of_Z.
Qed.

Lemma parse_list_written lc junk pad zs :
  (2 <= length zs)%nat ->
  Forall (fun z => LONG_MIN <= z <= LONG_MAX) zs ->
  skip_space pad = "" ->
  C.parse_list lc junk (String.concat (String "," pad) (map string_of_Z zs))
  = (length zs, Some zs).
Proof.
  intros Hlen Hrange Hpad.
  destruct zs as [|z zs]; [simpl in Hlen; lia|].
  pose proof (padding_comma_free pad Hpad) as Hcomma.
  assert (Hvalues :
    map (fun token => fst (strtol lc token))
      (map (fun y => (pad ++ string_of_Z y)%string) zs) = zs
    /\ Forall (fun token => snd (strtol lc token) = 0)
         (map (fun y => (pad ++ string_of_Z y)%string) zs)).
  { inversion Hrange as [|? ? _ Hzs]; subst. clear Hlen Hrange.
    induction zs as [|y zs IH]; [split; constructor|].
    inversion Hzs as [|? ? Hy Hzs']; subst.
    destruct (IH Hzs') as [IHv IHe].
    split.
    - cbn [map]. rewrite (strtol_written lc pad y Hpad Hy). cbn [fst].
      now rewrite IHv.
    - cbn [map]. constructor; [|assumption].
      now rewrite (strtol_written lc pad y Hpad Hy). }
  destruct Hvalues as [Hv He].
  inversion Hrange as [|? ? Hz _]; subst.
  rewrite parse_list_spec.
  - unfold strtok_all.
    rewrite (strtok_written pad zs z "" Hcomma),
      (count_commas_written pad zs z Hcomma).
    cbn [append map]. rewrite Hv.
    rewrite <- (append_nil_r (string_of_Z z)),
      (strtol_string_of_Z lc z "" Hz eq_refl).
    rewrite drop_ge by (rewrite malloc_length; simpl; rewrite length_map; lia).
    cbn [fst length]. now rewrite app_nil_r.
  - rewrite (count_commas_written pad zs z Hcomma).
    simpl in Hlen. lia.
  - unfold strtok_all. rewrite (strtok_written pad zs z "" Hcomma).
    constructor; [|assumption]. cbn [append].
    rewrite <- (append_nil_r (string_of_Z z)).
    now rewrite (strtol_string_of_Z lc z "" Hz eq_refl).
Qed.

End RoundTripFacts.

(** ** What the C++ program reads *)

Section CppReadFacts.

Lemma sorted_permutation_unique (l1 l2 : list Z) :
  Sorted Z.le l1 -> Sorted Z.le l2 -> Permutation l1 l2 -> l1 = l2.
Proof.
  intros H1 H2.
  apply Sorted_StronglySorted in H1; [|intros x y z; lia].
  apply Sorted_StronglySorted in H2; [|intros x y z; lia].
  revert l2 H2. induction H1 as [|a l1 Hs IH Hall]; intros l2 H2 Hp.
  - apply Permutation_nil in Hp. now subst.
  - destruct l2 as [|b l2];
      [symmetry in Hp; apply Permutation_nil in Hp; discriminate|].
    inversion H2 as [|? ? Hs2 Hall2]; subst.
    assert (Hab : a = b).
    { assert (Ha : In a (b :: l2))
        by (apply (Permutation_in _ Hp); now left).
      assert (Hb : In b (a :: l1))
        by (apply (Permutation_in _ (Permutation_sym Hp)); now left).
      destruct Ha as [Ha|Ha]; [congruence|].
      destruct Hb as [Hb|Hb]; [congruence|].
      apply (proj1 (List.Forall_forall _ _) Hall2) in Ha.
      apply (proj1 (List.Forall_forall _ _) Hall) in Hb. lia. }
    subst b. f_equal. apply IH; [assumption|].
    now apply Permutation_cons_inv in Hp.
Qed.

Lemma check_format_shift rounds : forall c s i b,
  Cpp.check_format rounds (String c s) (S i) b = Cpp.check_format rounds s i b.
Proof.
  induction rounds as [|rounds IH]; intros c s i b; [reflexivity|].
  cbn [Cpp.check_format String.length].
  change (S i <? S (String.length s))%nat with (i <? String.length s)%nat.
  change (char_at (String c s) (S i)) with (char_at s i).
  change (char_at (String c s) (S i + 1)) with (char_at s (i + 1)).
  change (S i + 3)%nat with (S (i + 3)). now rewrite IH.
Qed.

(** [atoi] on a character that is followed by a comma or by nothing. *)
Lemma atoi_one_char c rest :
  rest = "" \/ (exists r, rest = String "," r) ->
  0 <= atoi (String c rest) <= 9.
Proof.
  intros [->|[r ->]];
    destruct c as [[|] [|] [|] [|] [|] [|] [|] [|]];
    vm_compute; split; discriminate.
Qed.

Lemma collect_numbers_short s :
  (String.length s <= 1)%nat ->
  Forall (fun z => 0 <= z <= 9) (Cpp.collect_numbers s).
Proof.
  destruct s as [|c [|c' s]]; simpl; intros H; [constructor | | lia].
  destruct (negb (Ascii.eqb c ",") && negb (Ascii.eqb c " "));
    repeat constructor; apply (atoi_one_char c ""); now left.
Qed.

Lemma collect_numbers_digits rounds : forall s b,
  Cpp.check_format rounds s 1 b = true ->
  (String.length s <= 1 + 3 * rounds)%nat ->
  Forall (fun z => 0 <= z <= 9) (Cpp.collect_numbers s).
Proof.
  induction rounds as [|rounds IH]; intros s b Hrun Hlen.
  - apply collect_numbers_short. lia.
  - destruct s as [|c0 [|c1 s1]];
      [apply collect_numbers_short; simpl; lia
      |apply collect_numbers_short; simpl; lia|].
    cbn [Cpp.check_format String.length] in Hrun.
    change (1 <? S (S (String.length s1)))%nat with true in Hrun.
    change (char_at (String c0 (String c1 s1)) 1) with c1 in Hrun.
    destruct (Ascii.eqb_spec c1 ",") as [->|]; [|discriminate].
    destruct s1 as [|c2 s2]; [discriminate|].
    change (char_at (String c0 (String "," (String c2 s2))) (1 + 1))
      with c2 in Hrun.
    destruct (Ascii.eqb_spec c2 " ") as [->|]; [|discriminate].
    cbn [andb] in Hrun.
    change (1 + 3)%nat with (S (S (S 1))) in Hrun.
    rewrite !check_format_shift in Hrun.
    apply IH in Hrun; [|simpl in Hlen; lia].
    cbn [Cpp.collect_numbers]. cbn [Ascii.eqb Bool.eqb negb andb].
    destruct (negb (Ascii.eqb c0 ",") && negb (Ascii.eqb c0 " "));
      [constructor|]; try assumption.
    apply atoi_one_char. right. eauto.
Qed.

End CppReadFacts.

Section CppWrittenFacts.

Lemma digit_text d :
  0 <= d <= 9 ->
  exists c,
    string_of_Z d = String c ""
    /\ negb (Ascii.eqb c ",") && negb (Ascii.eqb c " ") = true
    /\ forall rest,
         rest = "" \/ (exists r, rest = String "," r) ->
         atoi (String c rest) = d.
Proof.
  intros Hd.
  assert (Hcases : d = 0 \/ d = 1 \/ d = 2 \/ d = 3 \/ d = 4 \/ d = 5
                   \/ d = 6 \/ d = 7 \/ d = 8 \/ d = 9) by lia.
  repeat (destruct Hcases as [->|Hcases]); [..|subst d];
    (eexists; split; [reflexivity|]; split; [reflexivity|];
     intros rest [->|[r ->]]; reflexivity).
Qed.

(** The format check and the reading loop on a written list of digits. *)
Lemma cpp_written ds : forall d rounds b,
  0 <= d <= 9 -> Forall (fun z => 0 <= z <= 9) ds ->
  (length ds <= rounds)%nat ->
  Cpp.check_format rounds (String.concat ", " (map string_of_Z (d :: ds))) 1 b
  = b || (0 <? length ds)%nat
  /\ Cpp.collect_numbers (String.concat ", " (map string_of_Z (d :: ds)))
     = d :: ds
  /\ String.length (String.concat ", " (map string_of_Z (d :: ds)))
     = (1 + 3 * length ds)%nat.
Proof.
  induction ds as [|e ds IH]; intros d rounds b Hd Hds Hrounds;
    destruct (digit_text d Hd) as (c & Hc & Hsep & Hatoi).
  - cbn [map String.concat]. rewrite Hc. split; [|split].
    + rewrite orb_false_r. now destruct rounds.
    + cbn [Cpp.collect_numbers]. rewrite Hsep, Hatoi by now left.
      reflexivity.
    + reflexivity.
  - inversion Hds as [|? ? He Hds']; subst.
    destruct rounds as [|rounds]; [simpl in Hrounds; lia|].
    destruct (IH e rounds true He Hds' ltac:(simpl in Hrounds; lia))
      as (Hcheck & Hcollect & Hlength).
    change (String.concat ", " (map string_of_Z (d :: e :: ds)))
      with (string_of_Z d
            ++ String "," (String " "
                 (String.concat ", " (map string_of_Z (e :: ds)))))%string.
    rewrite Hc. cbn [append]. split; [|split].
    + cbn [Cpp.check_format String.length].
      change (char_at (String c (String "," (String " " ?s))) 1)
        with ","%char.
      change (1 + 3)%nat with (S (S (S 1))).
      rewrite !check_format_shift, Hcheck.
      now rewrite orb_true_r.
    + cbn [Cpp.collect_numbers]. rewrite Hsep, Hatoi by (right; eauto).
      cbn [Ascii.eqb Bool.eqb negb andb]. now rewrite Hcollect.
    + cbn [String.length length]. rewrite Hlength. simpl. lia.
Qed.

Lemma read_numbers_written prog ds :
  (2 <= length ds)%nat -> Forall (fun z => 0 <= z <= 9) ds ->
  Cpp.read_numbers [prog; String.concat ", " (map string_of_Z ds)] = ds.
Proof.
  intros Hlen Hds. destruct ds as [|d ds]; [simpl in Hlen; lia|].
  inversion Hds as [|? ? Hd Hds']; subst.
  unfold Cpp.read_numbers. cbn [length nth Z.of_nat Z.eqb Pos.eqb].
  destruct (cpp_written ds d (1 + 3 * length ds) false Hd Hds' ltac:(lia))
    as (Hcheck & Hcollect & Hlength).
  change (Z.of_nat 2 =? 2) with true. cbv iota.
  rewrite Hlength, Hcheck, Hcollect.
  destruct ds; [simpl in Hlen; lia | reflexivity].
Qed.

(** The format check passes on every string that has the separator at each
    third index, as long as it has at least two characters. *)
Lemma check_format_accepts rounds : forall s index b,
  (forall k, (index + 3 * k < String.length s)%nat ->
     char_at s (index + 3 * k) = ","%char
     /\ char_at s (index + 3 * k + 1) = " "%char) ->
  (String.length s <= index + 3 * rounds)%nat ->
  Cpp.check_format rounds s index b = b || (index <? String.length s)%nat.
Proof.
  induction rounds as [|rounds IH]; intros s index b Hsep Hlen.
  - destruct (Nat.ltb_spec index (String.length s)); [lia|].
    now rewrite orb_false_r.
  - cbn [Cpp.check_format].
    destruct (Nat.ltb_spec index (String.length s)) as [Hlt|Hge];
      [|now rewrite orb_false_r].
    destruct (Hsep 0%nat ltac:(lia)) as [H1 H2].
    rewrite Nat.mul_0_r, Nat.add_0_r in H1, H2.
    rewrite H1, H2. cbn [Ascii.eqb Bool.eqb andb].
    rewrite IH, orb_true_r; [reflexivity | | lia].
    intros k Hk.
    replace (index + 3 + 3 * k)%nat with (index + 3 * S k)%nat by lia.
    apply Hsep. lia.
Qed.

End CppWrittenFacts.

(** ** The C sorter and the cells beyond [num_elems] *)

Section PrefixFacts.

Lemma full_pass_prefix x l rest :
  C.bubble_pass (length (x :: l ++ rest)) 0 (C.size_t_pred (length (x :: l)))
    (x :: l ++ rest) false
  = Some ((bubble x l ++ rest)%list, swaps x l).
Proof.
  cbn [length C.size_t_pred].
  rewrite (bubble_pass_counted (length l) 0 (x :: l ++ rest) false)
    by (simpl; lia).
  pose proof (inner_loop_spec l [] x rest false) as Hpass.
  simpl in Hpass. exact Hpass.
Qed.

Lemma bubble_sort_prefix_settled fuel : forall pre suf rest,
  settled pre suf ->
  (pre ++ suf)%list <> [] ->
  (1 <= fuel)%nat -> (length pre <= fuel)%nat ->
  exists v',
    C.bubble_sort fuel ((pre ++ suf) ++ rest) (length (pre ++ suf))
    = Done (v' ++ rest)%list
    /\ Permutation (pre ++ suf) v' /\ Sorted Z.le v'.
Proof.
  induction fuel as [|fuel IH]; intros pre suf rest Hset Hne H1 Hlen; [lia|].
  destruct pre as [|x l].
  - simpl app in Hne. destruct Hset as [Hs _].
    destruct suf as [|x l]; [congruence|].
    change (([] ++ x :: l) ++ rest)%list with (x :: l ++ rest)%list.
    change ([] ++ x :: l)%list with (x :: l).
    cbn [C.bubble_sort]. rewrite full_pass_prefix.
    rewrite (sorted_swaps_false _ _ Hs).
    rewrite (swaps_false_bubble _ _ (sorted_swaps_false _ _ Hs)).
    exists (x :: l). repeat split; [reflexivity | assumption].
  - change (((x :: l) ++ suf) ++ rest)%list
      with (x :: (l ++ suf) ++ rest)%list.
    change ((x :: l) ++ suf)%list with (x :: l ++ suf)%list.
    cbn [C.bubble_sort]. rewrite full_pass_prefix.
    destruct (bubble_max x l) as (q & m & Hb & _ & Hq).
    destruct (bubble_app x l suf q m Hb) as [Hbub Hsw].
    pose proof (settled_step _ _ _ _ _ Hset Hb Hq) as Hset'.
    pose proof (sorted_swaps_false _ _ (proj1 Hset')) as Hms.
    rewrite Hms, orb_false_r in Hsw.
    rewrite (swaps_false_bubble _ _ Hms) in Hbub.
    rewrite Hsw. destruct (swaps x l) eqn:Hxl.
    + assert (Hl : (1 <= length l)%nat)
        by (destruct l; [discriminate | simpl; lia]).
      pose proof (bubble_length x l) as Hbl.
      rewrite Hb, length_app in Hbl. simpl in Hbl, Hlen.
      assert (Hne' : (q ++ m :: suf)%list <> [])
        by (destruct q; discriminate).
      destruct (IH q (m :: suf) rest Hset' Hne' ltac:(lia) ltac:(lia))
        as (v' & Hrun & Hperm & Hsort).
      exists v'. rewrite Hbub.
      replace (length (x :: l ++ suf)) with (length (q ++ m :: suf))
        by (simpl; rewrite !length_app; simpl; lia).
      repeat split; [assumption | | assumption].
      etransitivity; [|exact Hperm].
      rewrite <- Hbub. apply bubble_perm.
    + rewrite (swaps_false_bubble _ _ Hsw).
      exists (x :: l ++ suf)%list.
      repeat split; [reflexivity|]. now apply swaps_false_sorted.
Qed.

(** A bound that reaches the end of the array makes the pass read past it. *)
Lemma bubble_pass_overrun cells : forall i arr b bound,
  Z.of_nat (length arr) <= bound -> Z.of_nat i < bound ->
  C.bubble_pass cells i bound arr b = None.
Proof.
  induction cells as [|cells IH]; intros i arr b bound Hbound Hi;
    cbn [C.bubble_pass];
    (destruct (Z.ltb_spec (Z.of_nat i) bound); [|lia]); [reflexivity|].
  destruct (arr !! i) as [a|] eqn:Ha; [|reflexivity].
  destruct (arr !! S i) as [c|] eqn:Hc; [|reflexivity].
  apply lookup_lt_Some in Hc.
  destruct (a >? c).
  - destruct (C.swap_elements arr i (S i)) as [arr'|] eqn:Hswap;
      [|reflexivity].
    apply IH; [rewrite (swap_elements_length _ _ _ _ Hswap)|]; lia.
  - apply IH; lia.
Qed.

End PrefixFacts.

(** ** Further properties of the two programs *)

(** X1.  [parse_list] returns either 0 together with a null array, or the
    number of commas plus one, which is at least 2, together with an array of
    exactly that many cells.  It never returns 1, and a non-zero count never
    comes with a null array. *)
Theorem parse_list_result_shape lc junk s :
  C.parse_list lc junk s = (0%nat, None)
  \/ exists arr,
       C.parse_list lc junk s = (S (C.count_commas s), Some arr)
       /\ length arr = S (C.count_commas s)
       /\ (1 <= C.count_commas s)%nat.
Proof.
  destruct (C.parse_list lc junk s) as [n [arr|]] eqn:Hparse.
  - right. destruct (parse_list_some _ _ _ _ _ Hparse) as (Hn & Hlen & H2).
    exists arr. subst n. repeat split; [assumption | lia].
  - left. destruct n as [|n]; [reflexivity|].
    destruct (parse_list_nonzero _ _ _ _ _ Hparse) as [a Ha];
      [lia | discriminate].
Qed.


(** X3.  When the argument has a comma and [strtol] accepts every token,
    [parse_list] returns the number of commas plus one and an array that
    holds the token values in order, followed by the cells no token reached,
    which still hold what [malloc] left there. *)
Theorem parse_list_values_then_uninitialised lc junk s :
  C.count_commas s <> 0%nat ->
  Forall (fun token => snd (strtol lc token) = 0) (strtok_all "," s) ->
  C.parse_list lc junk s
  = (S (C.count_commas s),
     Some (map (fun token => fst (strtol lc token)) (strtok_all "," s)
           ++ drop (length (strtok_all "," s))
                (C.malloc junk (S (C.count_commas s))))%list).
Proof. apply parse_list_spec. Qed.

Lemma parse_list_values_then_uninitialised_witness :
  C.parse_list ISO_C (fun i => 100 + Z.of_nat i) "1,,2"
  = (3%nat, Some [1; 2; 102]).
Proof.
  apply (parse_list_values_then_uninitialised ISO_C
           (fun i => 100 + Z.of_nat i) "1,,2").
  - simpl. lia.
  - repeat constructor.
Defined.

(** X4.  [parse_list] returns 0 exactly when the argument has no comma or
    [strtol] sets [errno] on one of its tokens. *)
Theorem parse_list_rejects_exactly lc junk s :
  fst (C.parse_list lc junk s) = 0%nat
  <-> C.count_commas s = 0%nat
      \/ Exists (fun token => snd (strtol lc token) <> 0) (strtok_all "," s).
Proof.
  split.
  - intros Hzero.
    destruct (Nat.eq_dec (C.count_commas s) 0%nat) as [|Hcommas]; [now left|].
    right. apply List.Exists_Forall_neg; [intros token; lia|].
    intros Hall.
    assert (Hok : Forall (fun token => snd (strtol lc token) = 0)
                    (strtok_all "," s))
      by (eapply Forall_impl; [exact Hall | intros token; simpl; lia]).
    rewrite (parse_list_spec lc junk s Hcommas Hok) in Hzero. discriminate.
  - intros [Hcommas|Herr].
    + now rewrite parse_list_no_comma.
    + apply List.Exists_exists in Herr as (token & Hin & Htoken).
      unfold C.parse_list.
      destruct (C.count_commas s =? 0)%nat; [reflexivity|].
      now rewrite (find_numbers_errno lc _ _ _ token Hin Htoken).
Qed.

(** X5.  The parser reads back what the printer writes: for a list of at
    least two integers in the range of [long], written in decimal and joined
    by a comma followed by any white space (none, or the blank of the
    printer), [parse_list] returns the length of the list and the list
    itself, whatever the C library and whatever was in the fresh memory. *)
Theorem parser_reads_written_list lc junk pad zs :
  (2 <= length zs)%nat ->
  Forall (fun z => LONG_MIN <= z <= LONG_MAX) zs ->
  skip_space pad = "" ->
  C.parse_list lc junk (String.concat (String "," pad) (map string_of_Z zs))
  = (length zs, Some zs).
Proof. apply parse_list_written. Qed.

Lemma parser_reads_written_list_witness :
  C.parse_list POSIX_EINVAL (fun _ => 7) "3, -1, 20" = (3%nat, Some [3; -1; 20]).
Proof.
  apply (parser_reads_written_list POSIX_EINVAL (fun _ => 7) " " [3; -1; 20]);
    [simpl; lia | explicit_list | reflexivity].
Defined.

(** X6.  Given a written list of at least two integers in the range of
    [long], the C program exits with status 0 and prints a non-decreasing
    permutation of exactly that list: no uninitialised cell and no libc
    difference shows. *)
Theorem c_main_sorts_written_list fuel lc junk prog pad zs :
  (2 <= length zs)%nat ->
  Forall (fun z => LONG_MIN <= z <= LONG_MAX) zs ->
  skip_space pad = "" ->
  (length zs <= fuel)%nat ->
  exists sorted,
    C.main fuel lc junk
      [prog; String.concat (String "," pad) (map string_of_Z zs)]
    = Done (Run 0 (render sorted) "")
    /\ Permutation zs sorted /\ Sorted Z.le sorted.
Proof.
  intros Hlen Hrange Hpad Hfuel.
  apply (main_success fuel lc junk _ (length zs) zs);
    [simpl; lia | | assumption].
  cbn [nth]. now apply parse_list_written.
Qed.

Lemma c_main_sorts_written_list_witness :
  exists sorted,
    C.main 3 ISO_C (fun _ => 7) ["sort"; "20,-1,3"]
    = Done (Run 0 (render sorted) "")
    /\ Permutation [20; -1; 3] sorted /\ Sorted Z.le sorted.
Proof.
  apply (c_main_sorts_written_list 3%nat ISO_C (fun _ => 7) "sort" ""
           [20; -1; 3]);
    [simpl; lia | explicit_list | reflexivity | simpl; lia].
Defined.

(** X7.  The output of either program is a fixed point of that program: run
    on a line it could have printed (a non-decreasing list of at least two
    numbers joined by ", "; numbers in the range of [long] for [source.c],
    single digits for [source.cpp]) it prints the same line again. *)
Theorem output_is_a_fixed_point :
  (forall fuel lc junk prog zs,
      (2 <= length zs)%nat ->
      Forall (fun z => LONG_MIN <= z <= LONG_MAX) zs ->
      Sorted Z.le zs ->
      (length zs <= fuel)%nat ->
      C.main fuel lc junk [prog; String.concat ", " (map string_of_Z zs)]
      = Done (Run 0 (String.concat ", " (map string_of_Z zs) ++ newline) ""))
  /\ (forall prog ds,
      (2 <= length ds)%nat ->
      Forall (fun z => 0 <= z <= 9) ds ->
      Sorted Z.le ds ->
      Cpp.main [prog; String.concat ", " (map string_of_Z ds)]
      = Done (Run 0 (String.concat ", " (map string_of_Z ds) ++ newline) "")).
Proof.
  split.
  - intros fuel lc junk prog zs Hlen Hrange Hsorted Hfuel.
    destruct (main_success fuel lc junk
                [prog; String.concat ", " (map string_of_Z zs)]
                (length zs) zs)
      as (sorted & Hrun & Hperm & Hs);
      [simpl; lia | | assumption |].
    + cbn [nth]. now apply (parse_list_written lc junk " ").
    + rewrite Hrun.
      now rewrite <- (sorted_permutation_unique _ _ Hsorted Hs Hperm).
  - intros prog ds Hlen Hdigits Hsorted.
    destruct (cpp_main_success
                [prog; String.concat ", " (map string_of_Z ds)])
      as (sorted & Hrun & Hperm & Hs).
    + now rewrite read_numbers_written.
    + rewrite read_numbers_written in Hperm by assumption.
      rewrite Hrun.
      now rewrite <- (sorted_permutation_unique _ _ Hsorted Hs Hperm).
Qed.

Lemma output_is_a_fixed_point_witness :
  C.main 3 ISO_C (fun _ => 7) ["sort"; "-1, 3, 20"]
  = Done (Run 0 ("-1, 3, 20" ++ newline) "")
  /\ Cpp.main ["sort"; "1, 3, 3"] = Done (Run 0 ("1, 3, 3" ++ newline) "").
Proof.
  split.
  - apply (proj1 output_is_a_fixed_point 3%nat ISO_C (fun _ => 7) "sort"
             [-1; 3; 20]);
      [simpl; lia | explicit_list | explicit_list | simpl; lia].
  - apply (proj2 output_is_a_fixed_point "sort" [1; 3; 3]);
      [simpl; lia | explicit_list | explicit_list].
Defined.

(** X8.  Whatever its arguments, every number the C++ program reads lies
    between 0 and 9: the format check leaves room for one character per
    number, and [atoi] stops at the comma behind it. *)
Theorem cpp_reads_single_digits argv :
  Forall (fun z => 0 <= z <= 9) (Cpp.read_numbers argv).
Proof.
  unfold Cpp.read_numbers.
  destruct (Z.of_nat (length argv) =? 2); [|constructor].
  destruct (Cpp.check_format _ _ _ _) eqn:Hcheck; [|constructor].
  apply (collect_numbers_digits _ _ _ Hcheck). lia.
Qed.

(** X9.  Given at least two single digits joined by ", ", the C++ program
    reads exactly those digits and prints a non-decreasing permutation of
    them. *)
Theorem cpp_main_sorts_written_digits prog ds :
  (2 <= length ds)%nat ->
  Forall (fun z => 0 <= z <= 9) ds ->
  Cpp.read_numbers [prog; String.concat ", " (map string_of_Z ds)] = ds
  /\ exists sorted,
       Cpp.main [prog; String.concat ", " (map string_of_Z ds)]
       = Done (Run 0 (render sorted) "")
       /\ Permutation ds sorted /\ Sorted Z.le sorted.
Proof.
  intros Hlen Hdigits.
  pose proof (read_numbers_written prog ds Hlen Hdigits) as Hread.
  split; [assumption|].
  destruct (cpp_main_success
              [prog; String.concat ", " (map string_of_Z ds)])
    as (sorted & Hrun & Hperm & Hs); [now rewrite Hread|].
  rewrite Hread in Hperm. now exists sorted.
Qed.

Lemma cpp_main_sorts_written_digits_witness :
  Cpp.read_numbers ["sort"; "9, 0, 4"] = [9; 0; 4]
  /\ exists sorted,
       Cpp.main ["sort"; "9, 0, 4"] = Done (Run 0 (render sorted) "")
       /\ Permutation [9; 0; 4] sorted /\ Sorted Z.le sorted.
Proof.
  apply (cpp_main_sorts_written_digits "sort" [9; 0; 4]);
    [simpl; lia | explicit_list].
Defined.

(** X10.  The format check of the C++ program accepts exactly the arguments
    of at least two characters in which every index 1, 4, 7, ... below the
    length holds a comma and the index after it a blank. *)
Theorem cpp_format_accepts_exactly characters :
  Cpp.check_format (String.length characters) characters 1 false = true
  <-> (2 <= String.length characters)%nat
      /\ forall k,
           (1 + 3 * k < String.length characters)%nat ->
           char_at characters (1 + 3 * k) = ","%char
           /\ char_at characters (1 + 3 * k + 1) = " "%char.
Proof.
  split.
  - intros Hrun. split.
    + destruct (Nat.le_gt_cases 2 (String.length characters)) as [|Hshort];
        [assumption|].
      rewrite check_format_accepts in Hrun; [| intros k Hk; lia | lia].
      destruct (Nat.ltb_spec 1 (String.length characters));
        [lia | discriminate].
    + intros k Hk. apply (check_format_spec _ _ _ _ Hrun); lia.
  - intros [Hlen Hsep].
    rewrite check_format_accepts; [| assumption | lia].
    destruct (Nat.ltb_spec 1 (String.length characters));
      [reflexivity | lia].
Qed.

(** X11.  The two sorters compute the same function: on every array of at
    least one element the C sorter and the C++ sorter return the same
    sequence. *)
Theorem sorters_agree (arr : list Z) fuel :
  arr <> [] -> (length arr <= fuel)%nat ->
  exists sorted,
    C.bubble_sort fuel arr (length arr) = Done sorted
    /\ Cpp.bubbleSort arr (Z.of_nat (length arr)) = Some sorted.
Proof.
  intros Hne Hfuel.
  destruct (bubble_sort_sorts arr fuel Hne Hfuel) as (v & Hc & Hpc & Hsc).
  destruct (bubbleSort_sorts arr) as (w & Hcpp & Hpw & Hsw).
  exists v. split; [assumption|]. rewrite Hcpp. f_equal.
  apply sorted_permutation_unique; [assumption | assumption|].
  now rewrite <- Hpw.
Qed.

Lemma sorters_agree_witness :
  exists sorted,
    C.bubble_sort 4 [4; 1; 3; 1] 4 = Done sorted
    /\ Cpp.bubbleSort [4; 1; 3; 1] 4 = Some sorted.
Proof.
  apply (sorters_agree [4; 1; 3; 1] 4%nat); [discriminate | simpl; lia].
Defined.

(** X12.  The result of sorting depends only on which numbers are given and
    how often each, not on their order: two arrays that are permutations of
    each other are sorted to the same sequence, by either sorter. *)
Theorem sorting_ignores_input_order (a b : list Z) fuel :
  a <> [] -> Permutation a b -> (length a <= fuel)%nat ->
  C.bubble_sort fuel a (length a) = C.bubble_sort fuel b (length b)
  /\ Cpp.bubbleSort a (Z.of_nat (length a))
     = Cpp.bubbleSort b (Z.of_nat (length b)).
Proof.
  intros Hne Hperm Hfuel.
  assert (Hneb : b <> [])
    by (intros ->; symmetry in Hperm; apply Permutation_nil in Hperm;
        contradiction).
  pose proof (Permutation_length Hperm) as Hlen.
  destruct (bubble_sort_sorts a fuel Hne Hfuel) as (va & Ha & Hpa & Hsa).
  destruct (bubble_sort_sorts b fuel Hneb ltac:(lia)) as (vb & Hb & Hpb & Hsb).
  destruct (bubbleSort_sorts a) as (wa & Hwa & Hpwa & Hswa).
  destruct (bubbleSort_sorts b) as (wb & Hwb & Hpwb & Hswb).
  rewrite Ha, Hb, Hwa, Hwb. split; f_equal;
    apply sorted_permutation_unique; try assumption.
  - now rewrite <- Hpa, Hperm.
  - now rewrite <- Hpwa, Hperm.
Qed.

Lemma sorting_ignores_input_order_witness :
  C.bubble_sort 3 [2; 3; 1] 3 = C.bubble_sort 3 [3; 1; 2] 3
  /\ Cpp.bubbleSort [2; 3; 1] 3 = Cpp.bubbleSort [3; 1; 2] 3.
Proof.
  apply (sorting_ignores_input_order [2; 3; 1] [3; 1; 2] 3%nat);
    [discriminate | | simpl; lia].
  apply perm_trans with [3; 2; 1];
    [apply perm_swap | apply perm_skip, perm_swap].
Defined.

(** X13.  [swap_elements] (and [swap] of the C++ file, called on two cells
    of the vector) exchanges the contents of cells [i] and [j] and touches no
    other cell; it is defined exactly when both indices lie inside the
    array. *)
Theorem swap_exchanges_two_cells (arr : list Z) i j :
  ((i < length arr)%nat -> (j < length arr)%nat ->
     exists arr',
       C.swap_elements arr i j = Some arr'
       /\ Cpp.swap arr i j = Some arr'
       /\ length arr' = length arr
       /\ arr' !! i = arr !! j
       /\ arr' !! j = arr !! i
       /\ forall k, k <> i -> k <> j -> arr' !! k = arr !! k)
  /\ ((length arr <= i)%nat \/ (length arr <= j)%nat ->
      C.swap_elements arr i j = None /\ Cpp.swap arr i j = None).
Proof.
  split.
  - intros Hi Hj.
    destruct (lookup_lt_is_Some_2 arr i Hi) as [ai Hai].
    destruct (lookup_lt_is_Some_2 arr j Hj) as [aj Haj].
    exists (<[j := ai]> (<[i := aj]> arr)).
    unfold C.swap_elements, Cpp.swap. rewrite Hai, Haj.
    split; [reflexivity|]. split; [reflexivity|].
    split; [now rewrite !length_insert|].
    split; [|split].
    + destruct (Nat.eq_dec i j) as [->|Hij].
      * rewrite list_lookup_insert_eq by (rewrite length_insert; lia).
        congruence.
      * rewrite list_lookup_insert_ne by congruence.
        rewrite list_lookup_insert_eq by lia. congruence.
    + rewrite list_lookup_insert_eq by (rewrite length_insert; lia).
      congruence.
    + intros k Hki Hkj.
      rewrite !list_lookup_insert_ne by congruence. reflexivity.
  - intros Hout. unfold C.swap_elements, Cpp.swap.
    destruct Hout as [Hout|Hout].
    + rewrite (lookup_ge_None_2 arr i Hout). now split.
    + rewrite (lookup_ge_None_2 arr j Hout).
      destruct (arr !! i); now split.
Qed.

Lemma swap_exchanges_two_cells_witness :
  (exists arr',
     C.swap_elements [5; 6; 7] 0 2 = Some arr'
     /\ Cpp.swap [5; 6; 7] 0 2 = Some arr'
     /\ length arr' = 3%nat
     /\ arr' !! 0%nat = Some 7
     /\ arr' !! 2%nat = Some 5
     /\ forall k, k <> 0%nat -> k <> 2%nat -> arr' !! k = [5; 6; 7] !! k)
  /\ C.swap_elements [5; 6; 7] 1 3 = None
  /\ Cpp.swap [5; 6; 7] 1 3 = None.
Proof.
  split.
  - apply (proj1 (swap_exchanges_two_cells [5; 6; 7] 0 2)); simpl; lia.
  - apply (proj2 (swap_exchanges_two_cells [5; 6; 7] 1 3)). simpl. lia.
Defined.

(** X14.  One full pass over an array of at least one element keeps its
    elements, leaves a largest one in the last cell, and reports that it had
    to swap exactly when the array was not yet in non-decreasing order.  The
    first inner loop of the C++ sorter does the same. *)
Theorem one_pass_settles_a_maximum (arr : list Z) :
  arr <> [] ->
  exists arr' had_to_swap q m,
    C.bubble_pass (length arr) 0 (C.size_t_pred (length arr)) arr false
    = Some (arr', had_to_swap)
    /\ Cpp.inner_loop (length arr - 1) 0 arr false = Some (arr', had_to_swap)
    /\ Permutation arr arr'
    /\ arr' = (q ++ [m])%list /\ Forall (fun a => a <= m) q
    /\ (had_to_swap = false <-> Sorted Z.le arr).
Proof.
  destruct arr as [|x l]; [congruence|]. intros _.
  destruct (bubble_max x l) as (q & m & Hb & _ & Hq).
  exists (bubble x l), (swaps x l), q, m.
  split; [apply full_pass|]. split.
  - pose proof (inner_loop_spec l [] x [] false) as Hpass.
    simpl in Hpass. rewrite !app_nil_r in Hpass.
    replace (length (x :: l) - 1)%nat with (length l) by (simpl; lia).
    exact Hpass.
  - split; [apply bubble_perm|]. split; [assumption|]. split; [assumption|].
    split; [apply swaps_false_sorted | apply sorted_swaps_false].
Qed.

Lemma one_pass_settles_a_maximum_witness :
  exists arr' had_to_swap q m,
    C.bubble_pass 3 0 2 [3; 1; 2] false = Some (arr', had_to_swap)
    /\ Cpp.inner_loop 2 0 [3; 1; 2] false = Some (arr', had_to_swap)
    /\ Permutation [3; 1; 2] arr'
    /\ arr' = (q ++ [m])%list /\ Forall (fun a => a <= m) q
    /\ (had_to_swap = false <-> Sorted Z.le [3; 1; 2]).
Proof.
  apply (one_pass_settles_a_maximum [3; 1; 2]). discriminate.
Defined.

(** X15.  Both printers write the elements of a non-empty sequence in
    decimal, joined by ", ", with no trailing separator and one newline at
    the end.  For no element at all the C++ printer writes nothing, while
    the C printer reads outside the array. *)
Theorem printers_write_joined_line :
  (forall v : list Z,
      v <> [] ->
      C.print_array v (length v) = Some (render v)
      /\ Cpp.print v (Z.of_nat (length v)) = Some (render v))
  /\ Cpp.print [] 0 = Some ""
  /\ C.print_array [] 0 = None.
Proof.
  split; [|split; reflexivity].
  intros v Hne. split; [now apply print_array_render | now apply print_render].
Qed.

Lemma printers_write_joined_line_witness :
  C.print_array [1; -2] 2 = Some ("1, -2" ++ newline)
  /\ Cpp.print [1; -2] 2 = Some ("1, -2" ++ newline).
Proof.
  apply (proj1 printers_write_joined_line [1; -2]). discriminate.
Defined.

(** X16.  The C sorter respects [num_elems]: given the length of a non-empty
    prefix of the array it sorts that prefix and leaves every cell behind it
    as it was; given a count of at least two that exceeds the length of the
    array it reads past the end in its first pass. *)
Theorem sorter_respects_num_elems :
  (forall fuel (arr rest : list Z),
      arr <> [] -> (length arr <= fuel)%nat ->
      exists sorted,
        C.bubble_sort fuel (arr ++ rest) (length arr)
        = Done (sorted ++ rest)%list
        /\ Permutation arr sorted /\ Sorted Z.le sorted)
  /\ (forall fuel (arr : list Z) num_elems,
      (2 <= num_elems)%nat -> (length arr < num_elems)%nat ->
      C.bubble_sort (S fuel) arr num_elems = Undefined).
Proof.
  split.
  - intros fuel arr rest Hne Hfuel.
    assert (H1 : (1 <= fuel)%nat)
      by (destruct arr; [congruence | simpl in Hfuel; lia]).
    destruct (bubble_sort_prefix_settled fuel arr [] rest (settled_nil arr))
      as (v & H); rewrite ?app_nil_r; try assumption.
    rewrite !app_nil_r in H. now exists v.
  - intros fuel arr num_elems Hn Hlen.
    destruct num_elems as [|[|n]]; [lia | lia |].
    cbn [C.bubble_sort C.size_t_pred].
    rewrite bubble_pass_overrun; [reflexivity | lia | lia].
Qed.

Lemma sorter_respects_num_elems_witness :
  (exists sorted,
     C.bubble_sort 2 ([3; 1] ++ [0; 2]) 2 = Done (sorted ++ [0; 2])%list
     /\ Permutation [3; 1] sorted /\ Sorted Z.le sorted)
  /\ C.bubble_sort 1 [3; 1] 3 = Undefined.
Proof.
  split.
  - apply (proj1 sorter_respects_num_elems 2%nat [3; 1] [0; 2]);
      [discriminate | simpl; lia].
  - apply (proj2 sorter_respects_num_elems 0%nat [3; 1] 3%nat); simpl; lia.
Defined.

(** X17.  On a list of at least two single digits joined by ", " the two
    programs behave alike: same exit status, same line on standard output,
    nothing on standard error. *)
Theorem programs_agree_on_written_digits fuel lc junk prog ds :
  (2 <= length ds)%nat ->
  Forall (fun z => 0 <= z <= 9) ds ->
  (length ds <= fuel)%nat ->
  C.main fuel lc junk [prog; String.concat ", " (map string_of_Z ds)]
  = Cpp.main [prog; String.concat ", " (map string_of_Z ds)].
Proof.
  intros Hlen Hdigits Hfuel.
  destruct (main_success fuel lc junk
              [prog; String.concat ", " (map string_of_Z ds)]
              (length ds) ds)
    as (sc & Hc & Hpc & Hsc); [simpl; lia | | assumption |].
  - cbn [nth]. apply (parse_list_written lc junk " "); try assumption;
      [|reflexivity].
    eapply Forall_impl; [exact Hdigits|].
    intros z Hz. simpl in Hz. unfold LONG_MIN, LONG_MAX. lia.
  - destruct (cpp_main_success
                [prog; String.concat ", " (map string_of_Z ds)])
      as (scpp & Hcpp & Hpcpp & Hscpp);
      [now rewrite read_numbers_written|].
    rewrite read_numbers_written in Hpcpp by assumption.
    rewrite Hc, Hcpp. do 3 f_equal.
    apply sorted_permutation_unique; [assumption | assumption|].
    now rewrite <- Hpc.
Qed.

Lemma programs_agree_on_written_digits_witness :
  C.main 3 ISO_C (fun _ => 7) ["sort"; "9, 0, 4"] = Cpp.main ["sort"; "9, 0, 4"].
Proof.
  apply (programs_agree_on_written_digits 3%nat ISO_C (fun _ => 7) "sort"
           [9; 0; 4]);
    [simpl; lia | explicit_list | simpl; lia].
Defined.
